(** * react-even-simpler-img: the image loader of [src/index.tsx]

    A shallow embedding of the provider [ImageLoader] (its reducer, [getValue],
    [getStatus], [loadImage] and the debounced [loadImage] it exposes), of the
    hook [useImgLoader] (render value, effect and [handleIntersect]) and of the
    value [SimpleImg] hands to its [img] element, followed by the properties of
    the specification that were settled against them.

    JavaScript values are an inductive type, exceptions are the [Throw]
    completion, the reducer state is a finite map of own properties, and
    everything asynchronous (timers, image loads, intersection callbacks) is an
    explicit event applied to an explicit state. *)

From Stdlib Require Import ZArith QArith Lia.
From stdpp Require Import gmap strings list fin_maps pretty.

Open Scope string_scope.
Open Scope list_scope.
Open Scope nat_scope.

(* ===================================================================== *)
(** ** JavaScript values and completions *)
(* ===================================================================== *)

(** The values that can reach the reducer state or be read back from it.
    [JPromise p] is the promise returned by the [p]-th call of [fetchImg];
    [JFunction] and [JObject] are the built-ins a property read can find on
    [Object.prototype]. *)
Inductive JsValue :=
| JUndefined
| JNull
| JBool (b : bool)
| JNumber (z : Z)
| JString (s : string)
| JPromise (p : nat)
| JFunction (name : string)
| JObject (name : string).

#[global] Instance JsValue_eq_dec : EqDecision JsValue.
Proof. solve_decision. Defined.

Inductive JsError :=
| Error (msg : string)
| TypeError (msg : string)
| ReferenceError (msg : string).

(** The outcome of evaluating a piece of code: a value, or a thrown error. *)
Inductive Completion (A : Type) :=
| Normal (a : A)
| Throw (e : JsError).
Arguments Normal {A} a.
Arguments Throw {A} e.

#[global] Instance Completion_ret : MRet Completion := fun A a => Normal a.
#[global] Instance Completion_bind : MBind Completion := fun A B k c =>
  match c with
  | Normal a => k a
  | Throw e => Throw e
  end.

#[global] Instance Completion_fmap : FMap Completion := fun A B f c =>
  match c with
  | Normal a => Normal (f a)
  | Throw e => Throw e
  end.

(** [typeof v]. *)
Definition typeof (v : JsValue) : string :=
  match v with
  | JUndefined => "undefined"
  | JNull => "object"
  | JBool _ => "boolean"
  | JNumber _ => "number"
  | JString _ => "string"
  | JPromise _ => "object"
  | JFunction _ => "function"
  | JObject _ => "object"
  end.

(** Truthiness, as [if (v)] and [v && ...] test it. *)
Definition ToBoolean (v : JsValue) : bool :=
  match v with
  | JUndefined | JNull => false
  | JBool b => b
  | JNumber z => negb (z =? 0)%Z
  | JString s => negb (String.eqb s "")
  | JPromise _ | JFunction _ | JObject _ => true
  end.

(** [v.then] for a truthy [v]: only a promise has the method. *)
Definition get_then (v : JsValue) : JsValue :=
  match v with
  | JPromise _ => JFunction "then"
  | _ => JUndefined
  end.

(** [v === b] for a boolean literal [b]. *)
Definition strict_eq_bool (v : JsValue) (b : bool) : bool :=
  match v with
  | JBool b' => Bool.eqb b' b
  | _ => false
  end.

(** [function isPromise(val) { return val && typeof val.then === 'function' }].
    The callers only branch on the result, so its truthiness is what is kept:
    a falsy [val] short-circuits to itself, which is falsy. *)
Definition isPromise (val : JsValue) : bool :=
  if ToBoolean val then String.eqb (typeof (get_then val)) "function" else false.

(* ===================================================================== *)
(** ** The status cache *)
(* ===================================================================== *)

(** [enum Status { IDLE = 0, PENDING = 1, LOADED = 2, ERROR = 3 }]. *)
Inductive Status := IDLE | PENDING | LOADED | ERROR.

#[global] Instance Status_eq_dec : EqDecision Status.
Proof. solve_decision. Defined.

Definition Status_value (s : Status) : Z :=
  match s with
  | IDLE => 0
  | PENDING => 1
  | LOADED => 2
  | ERROR => 3
  end.

(** The reducer state is a plain object literal used as a map from [src] to
    [CachedEntry]; the finite map holds its own properties. *)
Abbreviation Cache := (gmap string JsValue).

(** A plain object inherits from [Object.prototype]: a property read that finds
    no own property continues there.  These are the names the ECMAScript
    standard (with its Annex B) defines on it. *)
Definition Object_prototype_methods : list string :=
  [ "constructor"; "hasOwnProperty"; "isPrototypeOf"; "propertyIsEnumerable";
    "toLocaleString"; "toString"; "valueOf";
    "__defineGetter__"; "__defineSetter__"; "__lookupGetter__"; "__lookupSetter__" ].

Definition Object_prototype (key : string) : option JsValue :=
  if bool_decide (key = "__proto__") then Some (JObject "Object.prototype")
  else if bool_decide (key ∈ Object_prototype_methods) then Some (JFunction key)
  else None.

(** [o[key]] on a plain object: the own property when there is one, the
    inherited one otherwise, [undefined] when neither exists. *)
Definition prop_get (o : Cache) (key : string) : JsValue :=
  match o !! key with
  | Some v => v
  | None => default JUndefined (Object_prototype key)
  end.

(** The actions of the reducer of [ImageLoader]. *)
Inductive Action :=
| willLoad (src : string) (promise : JsValue)
| didLoad (src : string)
| didCatch (src : string)
| otherAction (type : string).

(** The reducer: [{ ...state, [key]: value }] copies the own properties and
    sets one. *)
Definition reducer (state : Cache) (action : Action) : Cache :=
  match action with
  | willLoad src promise => <[src := promise]> state
  | didLoad src => <[src := JBool true]> state
  | didCatch src => <[src := JBool false]> state
  | otherAction _ => state
  end.

(** [function getValue(src) { return cache[src] }]; [cache] is the state of the
    render in which the enclosing [useMemo] callback ran. *)
Definition getValue (cache : Cache) (src : string) : JsValue :=
  prop_get cache src.

Definition Unreachable_state : JsError := Error "Unreachable state".

(** [function getStatus(src)]. *)
Definition getStatus (cache : Cache) (src : string) : Completion Status :=
  let value := getValue cache src in
  if String.eqb (typeof value) "undefined" then Normal IDLE
  else if isPromise value then Normal PENDING
  else if strict_eq_bool value true then Normal LOADED
  else if strict_eq_bool value false then Normal ERROR
  else Throw Unreachable_state.

(* ===================================================================== *)
(** ** Timers and [debounce] *)
(* ===================================================================== *)

Section Timers.
Context {A C : Type}.

(** A pending [setTimeout]: [C] is what its callback does when it runs. *)
Record Timer := MkTimer {
  timer_id : nat;
  timer_due : nat;
  timer_callback : C;
}.

(** The timers of the page, in the order they were set. *)
Record Timers := MkTimers {
  next_timer : nat;
  pending : list Timer;
}.

Definition no_timers : Timers := MkTimers 1 [].

(** [setTimeout(callback, delay)] at time [now]: returns the new timer's id. *)
Definition setTimeout (callback : C) (delay now : nat) (ts : Timers) : nat * Timers :=
  (next_timer ts,
   MkTimers (S (next_timer ts))
            (pending ts ++ [MkTimer (next_timer ts) (now + delay) callback])).

(** [clearTimeout(id)]: [undefined], and the id of a timer that already ran or
    was cleared, cancel nothing. *)
Definition clearTimeout (id : option nat) (ts : Timers) : Timers :=
  match id with
  | None => ts
  | Some i =>
      MkTimers (next_timer ts)
               (filter (fun t => timer_id t ≠ i) (pending ts))
  end.

Definition is_due (now : nat) (t : Timer) : bool := (timer_due t <=? now)%nat.

(** The first pending timer that is due, and the timers left without it. *)
Fixpoint take_due (now : nat) (l : list Timer) : option (Timer * list Timer) :=
  match l with
  | [] => None
  | t :: l' =>
      if is_due now t then Some (t, l')
      else match take_due now l' with
           | Some (t', rest) => Some (t', t :: rest)
           | None => None
           end
  end.

(** The function [debounce(fn, delay)] returns, with the [timeoutID] its
    closure holds.  [db_fn args] stands for the call [fn(...args)] that the
    timer callback makes. *)
Record Debounced := MkDebounced {
  db_fn : A -> C;
  db_delay : nat;
  timeoutID : option nat;
}.

(** [function debounce(fn, delay) { let timeoutID; return function(...args) {...} }]. *)
Definition debounce (fn : A -> C) (delay : nat) : Debounced :=
  MkDebounced fn delay None.

(** One call of the returned function at time [now]:
    [clearTimeout(timeoutID); timeoutID = setTimeout(() => fn(...args), delay)]. *)
Definition debounced_call (d : Debounced) (args : A) (now : nat) (ts : Timers)
  : Debounced * Timers :=
  let ts1 := clearTimeout (timeoutID d) ts in
  let '(id, ts2) := setTimeout (db_fn d args) (db_delay d) now ts1 in
  (MkDebounced (db_fn d) (db_delay d) (Some id), ts2).

(** A page on which only the debounced function is called and timers run:
    [page_ran] lists the callbacks that ran, oldest first. *)
Record Page := MkPage {
  page_now : nat;
  page_timers : Timers;
  page_ran : list C;
}.

(** The page is idle until [t]: the timers due by then run, in the order they
    were set (all of them were set with the same delay). *)
Definition advance_to (t : nat) (pg : Page) : Page :=
  let now := max (page_now pg) t in
  MkPage now
         (MkTimers (next_timer (page_timers pg))
                   (filter (fun x => negb (is_due now x)) (pending (page_timers pg))))
         (page_ran pg ++
          map timer_callback (filter (fun x => is_due now x) (pending (page_timers pg)))).

(** The debounced function is called with [args] when the clock reads [t].
    No timer runs on the way: timers run in [advance_to] only, and a timer
    that is overdue but has not run yet is there for [clearTimeout] to cancel
    like any other. *)
Definition call_at (t : nat) (args : A) (st : Debounced * Page) : Debounced * Page :=
  let now := max (page_now (snd st)) t in
  let '(d, ts) := debounced_call (fst st) args now (page_timers (snd st)) in
  (d, MkPage now ts (page_ran (snd st))).

Definition calls_at (calls : list (nat * A)) (st : Debounced * Page) : Debounced * Page :=
  foldl (fun st c => call_at (fst c) (snd c) st) st calls.

(** Successive calls fall within the debounce window: each one is made before
    the timer set by the previous one is due. *)
Fixpoint within_window (delay : nat) (last : nat) (calls : list (nat * A)) : Prop :=
  match calls with
  | [] => True
  | (t, _) :: rest => (last <= t /\ t < last + delay)%nat /\ within_window delay t rest
  end.

(** The state a call with [args] at time [t] leaves behind: the closure holds
    the id of the one pending timer, which is due [delay] later and will make
    the call [fn args]; [ran] is what has run so far. *)
Definition armed (fn : A -> C) (delay : nat) (ran : list C) (t : nat) (args : A)
    (st : Debounced * Page) : Prop :=
  db_fn (fst st) = fn /\ db_delay (fst st) = delay /\
  page_now (snd st) = t /\ page_ran (snd st) = ran /\
  exists id, timeoutID (fst st) = Some id /\
             pending (page_timers (snd st)) = [MkTimer id (t + delay) (fn args)].

End Timers.

Arguments Timer : clear implicits.
Arguments Timers : clear implicits.
Arguments Debounced : clear implicits.
Arguments Page : clear implicits.

(* ===================================================================== *)
(** ** The provider: [fetchImg], [dispatch], [loadImage] *)
(* ===================================================================== *)

(** A DOM element, as far as the code looks at it: whether it is an
    [HTMLImageElement], and its [parentNode] when that is an [HTMLElement]. *)
Record Element := MkElement {
  elem_id : nat;
  elem_is_img : bool;
  elem_parent : option nat;
}.

#[global] Instance Element_eq_dec : EqDecision Element.
Proof. solve_decision. Defined.

(** How the image behind a [fetchImg] promise ends: [onload] resolves it with
    the image (of which only [height] is read), [onerror] rejects it. *)
Inductive Settlement :=
| Fulfilled (height : N)
| Rejected.

(** A [loadImage] call parked at [await promise]. *)
Record Suspended := MkSuspended {
  sus_promise : nat;
  sus_src : string;
  sus_imgNode : Element;
}.

(** The call [loadImage(src, imgNode)] a debounce timer makes: [rc_api] says
    which [imgLoaderApi] value (which run of the [useMemo] callback, hence which
    [cache]) the function belongs to. *)
Record RawCall := MkRawCall {
  rc_api : nat;
  rc_src : string;
  rc_imgNode : Element;
}.

(** One [imgLoaderApi] value: the [cache] its functions close over, and its
    [loadImage: debounce(loadImage, 16)]. *)
Record Api := MkApi {
  api_cache : Cache;
  api_loadImage : Debounced (string * Element) RawCall;
}.

Definition debounce_delay : nat := 16.

(** The value the [useMemo] callback builds in the [k]-th render of the
    provider that saw a new [cache]. *)
Definition imgLoaderApi (k : nat) (cache : Cache) : Api :=
  MkApi cache (debounce (fun args => MkRawCall k (fst args) (snd args)) debounce_delay).

(** The provider and the platform around it. *)
Record World := MkWorld {
  store : Cache;                   (* the reducer state *)
  apis : list Api;                 (* every [imgLoaderApi] built so far; the last one is in the context *)
  now : nat;                       (* milliseconds *)
  timers : Timers RawCall;
  fetched : list string;           (* the [fetchImg] calls; promise [p] belongs to the [p]-th *)
  settled : gmap nat Settlement;
  suspended : list Suspended;
  styleHeight : gmap nat string;   (* [style.height] assigned to an element, by [elem_id] *)
}.

Definition initial_world : World :=
  MkWorld ∅ [imgLoaderApi 0 ∅] 0 no_timers [] ∅ [] ∅.

(** [dispatch(action)]: the reducer runs on the current state; a new state
    object makes the provider render again, and [useMemo(..., [cache])] build a
    new [imgLoaderApi].  An action the reducer does not know returns the same
    state object, and nothing is rendered. *)
Definition dispatch (action : Action) (w : World) : World :=
  match action with
  | otherAction _ => w
  | _ =>
      let state := reducer (store w) action in
      MkWorld state (apis w ++ [imgLoaderApi (length (apis w)) state])
              (now w) (timers w) (fetched w) (settled w) (suspended w) (styleHeight w)
  end.

(** [function fetchImg(src)]: a new image starts loading; the promise is the
    handle of that load. *)
Definition fetchImg (src : string) (w : World) : JsValue * World :=
  (JPromise (length (fetched w)),
   MkWorld (store w) (apis w) (now w) (timers w) (fetched w ++ [src])
           (settled w) (suspended w) (styleHeight w)).

(** What [await] hands back to [loadImage]. *)
Inductive Awaited :=
| GotImage (height : N)      (* the promise was fulfilled with the image *)
| GotRejection               (* the promise was rejected *)
| GotValue (v : JsValue).    (* the awaited value was no promise *)

(** [const { height } = await promise]. *)
Definition destructure_height (a : Awaited) : Completion JsValue :=
  match a with
  | GotImage h => Normal (JNumber (Z.of_N h))
  | GotRejection => Throw (Error "error event")
  | GotValue JUndefined | GotValue JNull =>
      Throw (TypeError "Cannot destructure property 'height'")
  | GotValue _ => Normal JUndefined
  end.

(** The text a template literal yields for a value. *)
Definition template_text (v : JsValue) : string :=
  match v with
  | JUndefined => "undefined"
  | JNull => "null"
  | JBool true => "true"
  | JBool false => "false"
  | JNumber z => pretty z
  | JString s => s
  | JPromise _ => "[object Promise]"
  | JFunction name => "function " +:+ name
  | JObject _ => "[object Object]"
  end.

Definition set_styleHeight (id : nat) (h : string) (w : World) : World :=
  MkWorld (store w) (apis w) (now w) (timers w) (fetched w) (settled w)
          (suspended w) (<[id := h]> (styleHeight w)).

(** The part of [loadImage] after [await]: the [try] block and its [catch]. *)
Definition loadImage_resume (src : string) (imgNode : Element) (a : Awaited) (w : World)
  : bool * World :=
  match destructure_height a with
  | Normal height =>
      let w1 :=
        match elem_parent imgNode with
        | Some parentNode => set_styleHeight parentNode (template_text height +:+ "px") w
        | None => w
        end in
      (true, dispatch (didLoad src) w1)
  | Throw _ => (false, dispatch (didCatch src) w)
  end.

(** What a call of the async function [loadImage] has come to when it gives
    control back: its promise is resolved, rejected, or it waits for a load. *)
Inductive AsyncResult :=
| Resolves (b : bool)
| Rejects (e : JsError)
| Awaits (p : nat).

Definition park (p : nat) (src : string) (imgNode : Element) (w : World) : World :=
  MkWorld (store w) (apis w) (now w) (timers w) (fetched w) (settled w)
          (suspended w ++ [MkSuspended p src imgNode]) (styleHeight w).

(** [await promise]: a pending promise parks the call; a settled one, and a
    value that is no promise, let it continue before anything else runs. *)
Definition await (promise : JsValue) (src : string) (imgNode : Element) (w : World)
  : AsyncResult * World :=
  match promise with
  | JPromise p =>
      match settled w !! p with
      | None => (Awaits p, park p src imgNode w)
      | Some (Fulfilled h) =>
          let '(b, w') := loadImage_resume src imgNode (GotImage h) w in (Resolves b, w')
      | Some Rejected =>
          let '(b, w') := loadImage_resume src imgNode GotRejection w in (Resolves b, w')
      end
  | v => let '(b, w') := loadImage_resume src imgNode (GotValue v) w in (Resolves b, w')
  end.

(** [async function loadImage(src, imgNode)], as defined in the render whose
    state is [cache]; [w] is the world at the time of the call. *)
Definition loadImage (cache : Cache) (src : string) (imgNode : Element) (w : World)
  : AsyncResult * World :=
  match getStatus cache src with
  | Throw e => (Rejects e, w)
  | Normal IDLE =>
      let '(promise, w1) := fetchImg src w in
      let w2 := dispatch (willLoad src promise) w1 in
      await promise src imgNode w2
  | Normal PENDING => await (getValue cache src) src imgNode w
  | Normal LOADED => (Resolves true, w)
  | Normal ERROR => (Resolves false, w)
  end.

(* ===================================================================== *)
(** ** The events of a page *)
(* ===================================================================== *)

(** The index of the [imgLoaderApi] value the context provides. *)
Definition current_api (w : World) : nat := pred (length (apis w)).

Definition current_cache (w : World) : Cache :=
  match apis w !! current_api w with
  | Some api => api_cache api
  | None => store w
  end.

(** A consumer calls the [loadImage] it got from the context in the render
    that built the [k]-th [imgLoaderApi] value: the debounced function of that
    value.  An effect calls the one of the current value; a callback created
    by an earlier effect run still holds an older one. *)
Definition call_loadImage (k : nat) (src : string) (imgNode : Element) (w : World) : World :=
  match apis w !! k with
  | None => w
  | Some api =>
      let '(d, ts) := debounced_call (api_loadImage api) (src, imgNode) (now w) (timers w) in
      MkWorld (store w) (<[k := MkApi (api_cache api) d]> (apis w))
              (now w) ts (fetched w) (settled w) (suspended w) (styleHeight w)
  end.

(** The first due timer runs its callback: [fn(...args)], where [fn] is the
    [loadImage] of the [imgLoaderApi] value whose debounce set the timer; the
    promise it returns is dropped. *)
Definition fire_timer (w : World) : World :=
  match take_due (now w) (pending (timers w)) with
  | None => w
  | Some (t, rest) =>
      let rc := timer_callback t in
      let w1 := MkWorld (store w) (apis w) (now w) (MkTimers (next_timer (timers w)) rest)
                        (fetched w) (settled w) (suspended w) (styleHeight w) in
      match apis w !! rc_api rc with
      | Some api => snd (loadImage (api_cache api) (rc_src rc) (rc_imgNode rc) w1)
      | None => w1
      end
  end.

Definition awaited_of (s : Settlement) : Awaited :=
  match s with
  | Fulfilled h => GotImage h
  | Rejected => GotRejection
  end.

(** The calls parked on a promise continue, in the order they were parked. *)
Definition resume_all (a : Awaited) (waiting : list Suspended) (w : World) : World :=
  foldl (fun w s => snd (loadImage_resume (sus_src s) (sus_imgNode s) a w)) w waiting.

(** The image behind promise [p] fires [onload] or [onerror]: the promise
    settles, once, and the calls parked on it continue before any other event. *)
Definition settle (p : nat) (s : Settlement) (w : World) : World :=
  if bool_decide (p < length (fetched w)) && bool_decide (settled w !! p = None) then
    let waiting := filter (fun x => sus_promise x = p) (suspended w) in
    let rest := filter (fun x => sus_promise x ≠ p) (suspended w) in
    resume_all (awaited_of s) waiting
      (MkWorld (store w) (apis w) (now w) (timers w) (fetched w)
               (<[p := s]> (settled w)) rest (styleHeight w))
  else w.

Definition tick (ms : nat) (w : World) : World :=
  MkWorld (store w) (apis w) (now w + ms) (timers w) (fetched w) (settled w)
          (suspended w) (styleHeight w).

Inductive Event :=
| EvCall (k : nat) (src : string) (imgNode : Element)
| EvTick (ms : nat)
| EvFire
| EvSettle (p : nat) (s : Settlement).

Definition step (w : World) (ev : Event) : World :=
  match ev with
  | EvCall k src imgNode => call_loadImage k src imgNode w
  | EvTick ms => tick ms w
  | EvFire => fire_timer w
  | EvSettle p s => settle p s w
  end.

Definition run (evs : list Event) (w : World) : World := foldl step w evs.

Definition reachable (w : World) : Prop := exists evs, w = run evs initial_world.

(* ===================================================================== *)
(** ** The hook [useImgLoader] and the component [SimpleImg] *)
(* ===================================================================== *)

Definition DEFAULT_PLACEHOLDER : string :=
  "data:image/gif;base64,R0lGODlhAQABAAD/ACwAAAAAAQABAAACADs=".

(** [type ImgLoaderConfig]: every field is optional. *)
Record ImgLoaderConfig := MkConfig {
  lazy : option bool;
  imgNode : option Element;
  placeholder : option string;
}.

Definition empty_config : ImgLoaderConfig := MkConfig None None None.

(** [function useImgLoaderContext()]. *)
Definition useImgLoaderContext (ctx : option Api) : Completion Api :=
  match ctx with
  | None =>
      Throw (Error ("SimpleImg: Cannot find any ImgLoaderContext value. " +:+
                    "Did you forget to wrap your app with <ImageLoader />?"))
  | Some api => Normal api
  end.

(** The value a render of [useImgLoader(src, config)] returns or throws. *)
Definition useImgLoader (ctx : option Api) (src : string) (config : ImgLoaderConfig)
  : Completion string :=
  let placeholder := default DEFAULT_PLACEHOLDER (placeholder config) in
  api ← useImgLoaderContext ctx;
  status ← getStatus (api_cache api) src;
  if bool_decide (status = LOADED) then Normal src
  else if bool_decide (status = ERROR) then
    Throw (Error ("SimpleImg: Failed to load img: " +:+ src))
  else Normal placeholder.

(** What the page offers: the globals [supportsIntersectionObserver] looks for,
    and the build flag [__DEV__]. *)
Record Platform := MkPlatform {
  has_window : bool;
  has_IntersectionObserver : bool;
  has_IntersectionObserverEntry : bool;
  DEV : bool;
}.

Definition supportsIntersectionObserver (pf : Platform) : bool :=
  has_window pf && has_IntersectionObserver pf && has_IntersectionObserverEntry pf.

(** What the effect of [useImgLoader] does, in order. *)
Inductive EffectAction :=
| ConsoleError (msg : string)
| CallLoadImage (src : string) (imgNode : Element)
| NewObserver
| Observe (imgNode : Element).

(** One run of the effect: what it did, and how it ended.  A normal end
    carries the element its cleanup will [unobserve], if any. *)
Record EffectRun := MkEffectRun {
  actions : list EffectAction;
  completion : Completion (option Element);
}.

Definition IntersectionObserver_warning : string :=
  "Warning: your browser does not support IntersectionObserver. " +:+
  "Image will not be lazily loaded. " +:+
  "If this is not acceptable, you can try polyfilling IntersectionObserver.".

(** [getObserver(); observer.observe(imgNode)]: [_observer.current] is never
    assigned, so every call constructs [new IntersectionObserver(...)], which
    is a [ReferenceError] where the global does not exist. *)
Definition attach_observer (pf : Platform) (node : Element) (done : list EffectAction)
  : EffectRun :=
  if has_window pf && has_IntersectionObserver pf then
    MkEffectRun (done ++ [NewObserver; Observe node])%list (Normal (Some node))
  else
    MkEffectRun done (Throw (ReferenceError "IntersectionObserver is not defined")).

(** The callback given to [useEffect], run after a render that saw [status]. *)
Definition useImgLoader_effect (pf : Platform) (status : Status) (src : string)
    (config : ImgLoaderConfig) : EffectRun :=
  match imgNode config with
  | Some node =>
      if bool_decide (status = IDLE) && elem_is_img node then
        if default false (lazy config) then
          let fallback :=
            if negb (supportsIntersectionObserver pf) then
              ((if DEV pf then [ConsoleError IntersectionObserver_warning] else [])
               ++ [CallLoadImage src node])%list
            else [] in
          attach_observer pf node fallback
        else MkEffectRun [CallLoadImage src node] (Normal None)
      else MkEffectRun [] (Normal None)
  | None => MkEffectRun [] (Normal None)
  end.

(** The props of [SimpleImg] that decide what it shows. *)
Record SimpleImgProps := MkProps {
  prop_src : option string;
  prop_importance : option string;
  prop_placeholder : option string;
  prop_width : JsValue;
  prop_height : JsValue;
}.

(** What [SimpleImg] renders, as far as it is computed here: the [src] of the
    [img], and whether the [reveal] and [stretch] styles are composed in. *)
Record Rendered := MkRendered {
  img_src : string;
  shouldShow : bool;
  shouldStretch : bool;
}.

(** [function SimpleImg(props)], in a render where the [img] node is [node]
    ([None] until the ref callback has stored it). *)
Definition SimpleImg (ctx : option Api) (node : option Element) (props : SimpleImgProps)
  : Completion Rendered :=
  let src := default "" (prop_src props) in
  let importance := default "auto" (prop_importance props) in
  let placeholder := default DEFAULT_PLACEHOLDER (prop_placeholder props) in
  imgSrc ← useImgLoader ctx src
             (MkConfig (Some (String.eqb importance "low"))
                       (match node with
                        | Some n => if elem_is_img n then Some n else None
                        | None => None
                        end)
                       (Some placeholder));
  Normal (MkRendered imgSrc
                     (negb (String.eqb imgSrc placeholder))
                     (negb (ToBoolean (prop_width props)) &&
                      negb (ToBoolean (prop_height props)))).

(* ===================================================================== *)
(** ** The visibility trigger: the observer and [handleIntersect] *)
(* ===================================================================== *)

(** An [IntersectionObserverEntry], as far as [handleIntersect] reads it. *)
Record Entry := MkEntry {
  target : Element;
  intersectionRatio : Q;
}.

(** An [IntersectionObserver]: its observation targets and the entries the
    page has queued for its next callback. *)
Record Observer := MkObserver {
  io_targets : list Element;
  io_queue : list Entry;
}.

Definition observed (node : Element) (o : Observer) : bool :=
  bool_decide (elem_id node ∈ map elem_id (io_targets o)).

(** [observer.observe(node)]: a target already observed is not added again. *)
Definition observe (node : Element) (o : Observer) : Observer :=
  if observed node o then o
  else MkObserver (io_targets o ++ [node]) (io_queue o).

(** [observer.unobserve(node)]: the target is dropped; queued entries stay. *)
Definition unobserve (node : Element) (o : Observer) : Observer :=
  MkObserver (filter (fun e => elem_id e ≠ elem_id node) (io_targets o)) (io_queue o).

(** [intersectionRatio > 0]. *)
Definition ratio_positive (r : Q) : bool := (0 <? Qnum r)%Z.

(** [function handleIntersect(entries, self)] of the effect run for [src]:
    the [loadImage] calls it makes, and the observer it leaves. *)
Definition handleIntersect (src : string) (entries : list Entry) (self : Observer)
  : Completion (list (string * Element) * Observer) :=
  match entries with
  | [] => Throw (TypeError "Cannot destructure property 'target' of 'entries[0]'")
  | e :: _ =>
      if ratio_positive (intersectionRatio e) && elem_is_img (target e) then
        Normal ([(src, target e)], unobserve (target e) self)
      else Normal ([], self)
  end.

(** The observer an effect run owns, and the [loadImage] calls its callback
    has made so far. *)
Record Watch := MkWatch {
  watch_observer : Observer;
  watch_loads : list (string * Element);
}.

(** What can happen to that observer: the page queues an entry for a target it
    observes, the page delivers the queued entries to the callback, or the
    cleanup of the effect unobserves the element. *)
Inductive IoEvent :=
| IoDetect (e : Entry)
| IoNotify
| IoCleanup (node : Element).

Definition io_step (src : string) (st : Watch) (ev : IoEvent) : Watch :=
  let o := watch_observer st in
  match ev with
  | IoDetect e =>
      if observed (target e) o then
        MkWatch (MkObserver (io_targets o) (io_queue o ++ [e])) (watch_loads st)
      else st
  | IoNotify =>
      match io_queue o with
      | [] => st
      | entries =>
          match handleIntersect src entries (MkObserver (io_targets o) []) with
          | Normal (calls, o') => MkWatch o' (watch_loads st ++ calls)
          | Throw _ => MkWatch (MkObserver (io_targets o) []) (watch_loads st)
          end
      end
  | IoCleanup node => MkWatch (unobserve node o) (watch_loads st)
  end.

Definition io_run (src : string) (evs : list IoEvent) (st : Watch) : Watch :=
  foldl (io_step src) st evs.

(** The observer the effect creates: [new IntersectionObserver(handleIntersect,
    CONFIG)] followed by [observe(imgNode)]. *)
Definition effect_watch (node : Element) : Watch :=
  MkWatch (observe node (MkObserver [] [])) [].

Definition loaded_ids (st : Watch) : list nat := map (fun c => elem_id (snd c)) (watch_loads st).

(** No element was loaded twice, and a loaded element is neither observed nor
    in the queue any more. *)
Definition watch_inv (st : Watch) : Prop :=
  NoDup (loaded_ids st) /\
  forall i, i ∈ loaded_ids st ->
    (i ∉ map elem_id (io_targets (watch_observer st))) /\
    (i ∉ map (fun e => elem_id (target e)) (io_queue (watch_observer st))).

(* ===================================================================== *)
(** ** Consumers on a page *)
(* ===================================================================== *)

(** The [loadImage] calls among the actions of an effect run that got its
    [loadImage] from the [k]-th [imgLoaderApi] value. *)
Definition calls_of (k : nat) (acts : list EffectAction) : list Event :=
  flat_map (fun a => match a with
                     | CallLoadImage src node => [EvCall k src node]
                     | _ => []
                     end) acts.

(** The calls the effects of the mounted consumers make after the render that
    built the [k]-th [imgLoaderApi] value, whose cache is [cache].  The effect
    depends on [loadImage], which is a new function in every [imgLoaderApi]
    value, so it runs again after every such render. *)
Definition effect_events (pf : Platform) (k : nat) (cache : Cache)
    (consumers : list (string * ImgLoaderConfig)) : list Event :=
  flat_map (fun c =>
              match getStatus cache (fst c) with
              | Normal status =>
                  calls_of k (actions (useImgLoader_effect pf status (fst c) (snd c)))
              | Throw _ => []
              end) consumers.

Definition run_effects (pf : Platform) (consumers : list (string * ImgLoaderConfig))
    (w : World) : World :=
  run (effect_events pf (current_api w) (current_cache w) consumers) w.

Definition browser : Platform := MkPlatform true true true false.
Definition old_browser : Platform := MkPlatform true false false true.

Definition img (id : nat) : Element := MkElement id true (Some (100 + id)).
Definition eager (node : Element) : ImgLoaderConfig := MkConfig (Some false) (Some node) None.
Definition lazily (node : Element) : ImgLoaderConfig := MkConfig (Some true) (Some node) None.

(** Two eager images on one page: ["a.png"] in element 1 and ["b.png"] in
    element 2. *)
Definition two_images : list (string * ImgLoaderConfig) :=
  [("a.png", eager (img 1)); ("b.png", eager (img 2))].

(** A page on which ["b.png"] finishes loading while the debounce timer for
    ["a.png"] is pending.  Each stage is what happens next. *)
Definition stale_stages : list (World -> World) :=
  [ run_effects browser two_images;               (* mount: both effects call [loadImage]; the last call wins *)
    run [EvTick 16; EvFire];                       (* the timer runs [loadImage("b.png")]: fetch 0 *)
    run_effects browser two_images;               (* new [loadImage]: the effect of a.png calls it *)
    run [EvTick 5; EvSettle 0 (Fulfilled 40)];     (* b.png has loaded, 5 ms later *)
    run_effects browser two_images;               (* new [loadImage] again: the effect of a.png calls it *)
    run [EvTick 11; EvFire];                       (* the first timer for a.png is due: fetch 1 *)
    run [EvTick 2; EvSettle 1 (Fulfilled 30)];     (* a.png has loaded *)
    run [EvTick 3; EvFire] ].                      (* the second timer for a.png is due *)

Definition stale_page (n : nat) : World :=
  foldl (fun w f => f w) initial_world (take n stale_stages).

(** The same page when the second timer for ["a.png"] is due 5 ms after the
    first one has run, while the fetch the first one started is in flight. *)
Definition inflight_page : World := run [EvTick 5; EvFire] (stale_page 6).

(** The same page when the image of that fetch ends with [s], 2 ms after the
    first timer has run and before the second one is due. *)
Definition settled_page (s : Settlement) : World :=
  run [EvTick 2; EvSettle 1 s] (stale_page 6).

(** The [loadImage] calls the observers of the mounted consumers make when the
    page reports their elements with intersection ratio [r].  An effect run
    that ended with an observer on its element, after the render that built
    the [k]-th [imgLoaderApi] value, gets one delivery of one entry for that
    element, and its [handleIntersect] calls the [loadImage] of that value. *)
Definition intersect_events (pf : Platform) (k : nat) (cache : Cache) (r : Q)
    (consumers : list (string * ImgLoaderConfig)) : list Event :=
  flat_map (fun c =>
              match getStatus cache (fst c) with
              | Normal status =>
                  match completion (useImgLoader_effect pf status (fst c) (snd c)) with
                  | Normal (Some node) =>
                      map (fun l => EvCall k (fst l) (snd l))
                          (watch_loads (io_run (fst c) [IoDetect (MkEntry node r); IoNotify]
                                               (effect_watch node)))
                  | _ => []
                  end
              | Throw _ => []
              end) consumers.

Definition run_intersections (pf : Platform) (consumers : list (string * ImgLoaderConfig))
    (r : Q) (w : World) : World :=
  run (intersect_events pf (current_api w) (current_cache w) r consumers) w.

(** A lazy image ["a.png"] in element 1 and an eager image ["b.png"] in
    element 2 on one page. *)
Definition lazy_and_eager : list (string * ImgLoaderConfig) :=
  [("a.png", lazily (img 1)); ("b.png", eager (img 2))].

(** A page on which the lazy image comes into view while ["b.png"] is being
    loaded.  Every render with a new [imgLoaderApi] value runs the effect of
    ["a.png"] again, which is still [IDLE]: the cleanup unobserves the element
    on the old observer and the effect observes it on a new one. *)
Definition lazy_stages : list (World -> World) :=
  [ run_effects browser lazy_and_eager;           (* mount: observer 1 on element 1; the effect of b.png calls [loadImage] *)
    run [EvTick 16; EvFire];                       (* the timer runs [loadImage("b.png")]: fetch 0 *)
    run_effects browser lazy_and_eager;           (* new [loadImage]: observer 2 on element 1 *)
    run_intersections browser lazy_and_eager 1;   (* element 1 is in view: observer 2 calls [loadImage], unobserves *)
    run [EvTick 5; EvSettle 0 (Fulfilled 40)];     (* b.png has loaded, 5 ms later *)
    run_effects browser lazy_and_eager;           (* new [loadImage] again: observer 3 on element 1 *)
    run_intersections browser lazy_and_eager 1;   (* element 1 is in view: observer 3 calls [loadImage] *)
    run [EvTick 11; EvFire];                       (* the timer of observer 2's call: fetch 1 *)
    run [EvTick 5; EvFire] ].                      (* the timer of observer 3's call: fetch 2 *)

Definition lazy_page (n : nat) : World :=
  foldl (fun w f => f w) initial_world (take n lazy_stages).

(* ===================================================================== *)
(** ** Styles: [styles] and [composeStyles] *)
(* ===================================================================== *)

(** The value of a property of a style object: a text or a number. *)
Inductive CssValue :=
| CssText (s : string)
| CssNumber (z : Z).

#[global] Instance CssValue_eq_dec : EqDecision CssValue.
Proof. solve_decision. Defined.

(** A style object, by its own properties. *)
Abbreviation Style := (gmap string CssValue).

(** An argument of [composeStyles]: a style object, a boolean (what
    [cond && style] leaves when [cond] is false), or [undefined] / [null]. *)
Inductive StyleArg :=
| StyleObject (style : Style)
| StyleBoolean (b : bool)
| StyleNullish.

(** [const styles = { wrapper, reveal, stretch }]. *)
Definition styles_wrapper : Style :=
  list_to_map
    [ ("position", CssText "relative"); ("overflow", CssText "hidden");
      ("display", CssText "flex"); ("flexDirection", CssText "column");
      ("justifyContent", CssText "center"); ("alignItems", CssText "center");
      ("transition", CssText "0.3s opacity ease"); ("opacity", CssNumber 0) ].

Definition styles_reveal : Style := {[ "opacity" := CssNumber 1 ]}.

Definition styles_stretch : Style := {[ "width" := CssText "100%" ]}.

(** The inner loop of [composeStyles] over one style object:
    [for (const key in style) if (style.hasOwnProperty(key)) combinedStyle[key] = style[key]].
    An own property called [hasOwnProperty] is a text or a number, so calling
    it is a [TypeError]; assigning a text or a number to [__proto__] goes to
    the setter every object inherits, which ignores it. *)
Definition copy_style (style combinedStyle : Style) : Completion Style :=
  if bool_decide (is_Some (style !! "hasOwnProperty")) then
    Throw (TypeError "style.hasOwnProperty is not a function")
  else Normal (delete "__proto__" style ∪ combinedStyle).

(** The outer loop of [composeStyles], from the [combinedStyle] built so far. *)
Fixpoint composeStyles_from (combinedStyle : Style) (styles : list StyleArg)
  : Completion Style :=
  match styles with
  | [] => Normal combinedStyle
  | StyleObject style :: rest =>
      combined ← copy_style style combinedStyle;
      composeStyles_from combined rest
  | StyleBoolean _ :: rest => composeStyles_from combinedStyle rest
  | StyleNullish :: rest => composeStyles_from combinedStyle rest
  end.

(** [function composeStyles(...styles)]. *)
Definition composeStyles (styles : list StyleArg) : Completion Style :=
  composeStyles_from ∅ styles.

(** [cond && style]. *)
Definition and_style (cond : bool) (style : Style) : StyleArg :=
  if cond then StyleObject style else StyleBoolean false.

(** The [style] of the wrapping [div] of [SimpleImg]:
    [composeStyles(styles.wrapper, shouldShow && styles.reveal)]. *)
Definition wrapper_style (r : Rendered) : Completion Style :=
  composeStyles [StyleObject styles_wrapper; and_style (shouldShow r) styles_reveal].

(** The [style] of its [img], for the [style] prop given ([{}] by default):
    [composeStyles(style, shouldStretch && styles.stretch)]. *)
Definition img_style (style : option Style) (r : Rendered) : Completion Style :=
  composeStyles [StyleObject (default ∅ style); and_style (shouldStretch r) styles_stretch].

(** A style object with no property called [hasOwnProperty] or [__proto__]. *)
Definition ordinary_style (style : Style) : Prop :=
  style !! "hasOwnProperty" = None /\ style !! "__proto__" = None.

(* ===================================================================== *)
(** ** Well-formed worlds *)
(* ===================================================================== *)

(** A name no object inherits from [Object.prototype]. *)
Definition plain_name (key : string) : Prop := Object_prototype key = None.

(** A cache whose every entry sits under a plain name and is a promise of a
    fetch of that very URL, or a boolean. *)
Definition cache_ok (fs : list string) (c : Cache) : Prop :=
  forall k v, c !! k = Some v ->
    plain_name k /\ ((exists p, v = JPromise p /\ fs !! p = Some k) \/ (exists b, v = JBool b)).

Definition suspended_ok (fs : list string) (s : Suspended) : Prop :=
  plain_name (sus_src s) /\ fs !! sus_promise s = Some (sus_src s).

(** What holds of every world the events lead to. *)
Record world_ok (w : World) : Prop := MkWorldOk {
  ok_store : cache_ok (fetched w) (store w);
  ok_apis : Forall (fun api => cache_ok (fetched w) (api_cache api)) (apis w);
  ok_suspended : Forall (suspended_ok (fetched w)) (suspended w);
}.

(** Only promises of fetches that were started are settled. *)
Definition settled_ok (w : World) : Prop :=
  forall p, is_Some (settled w !! p) -> p < length (fetched w).

(** The pending timers have distinct ids below the next one, and each is the
    timer its [imgLoaderApi] value remembers in [timeoutID]. *)
Record timers_ok (w : World) : Prop := MkTimersOk {
  ok_ids : Forall (fun t => timer_id t < next_timer (timers w)) (pending (timers w));
  ok_distinct : NoDup (map timer_id (pending (timers w)));
  ok_owner : Forall (fun t => exists api, apis w !! rc_api (timer_callback t) = Some api /\
                                       timeoutID (api_loadImage api) = Some (timer_id t))
                    (pending (timers w));
}.

(* ===================================================================== *)
(** ** Auxiliary notions *)
(* ===================================================================== *)

(** The URL an action is about, if it is one of the three the reducer knows. *)
Definition action_src (a : Action) : option string :=
  match a with
  | willLoad src _ | didLoad src | didCatch src => Some src
  | otherAction _ => None
  end.

(** The world a call of [loadImage] that finds its URL [IDLE] leaves: the
    image is being fetched, the promise is in the cache, the call is parked. *)
Definition started (src : string) (node : Element) (w : World) : World :=
  park (length (fetched w)) src node
       (dispatch (willLoad src (JPromise (length (fetched w)))) (snd (fetchImg src w))).

(** Whether a settlement is a success. *)
Definition succeeded (s : Settlement) : bool :=
  match s with
  | Fulfilled _ => true
  | Rejected => false
  end.

(** The [loadImage] of the [k]-th [imgLoaderApi] value is debounced by 16 ms,
    and its timer callback calls the [loadImage] of that value with the
    arguments of the call. *)
Definition apis_indexed (w : World) : Prop :=
  forall k api, apis w !! k = Some api ->
    db_delay (api_loadImage api) = debounce_delay /\
    forall args, db_fn (api_loadImage api) args = MkRawCall k (fst args) (snd args).

Definition debounce_ok (w : World) : Prop := timers_ok w /\ apis_indexed w.

(** Whether an argument is a style object. *)
Definition is_style_object (s : StyleArg) : Prop :=
  match s with
  | StyleObject _ => True
  | _ => False
  end.

#[local] Instance is_style_object_dec (s : StyleArg) : Decision (is_style_object s).
Proof. destruct s; simpl; apply _. Defined.

#[local] Instance JsError_eq_dec : EqDecision JsError.
Proof. solve_decision. Defined.

#[local] Instance Completion_eq_dec {X : Type} `{EqDecision X} : EqDecision (Completion X).
Proof. solve_decision. Defined.

(* ===================================================================== *)
(** * Properties *)
(* ===================================================================== *)

(** ** Reading the cache *)

(** Only a promise passes [isPromise]. *)
Lemma isPromise_spec (v : JsValue) :
  isPromise v = match v with JPromise _ => true | _ => false end.
Proof.
  unfold isPromise. destruct v as [| |b|z|s|p|f|o]; simpl; try reflexivity.
  - by destruct b.
  - by destruct (z =? 0)%Z.
  - by destruct (String.eqb s "").
Qed.

(** [getStatus] is decided by the value [getValue] reads. *)
Lemma getStatus_cases (cache : Cache) (src : string) :
  getStatus cache src =
    match getValue cache src with
    | JUndefined => Normal IDLE
    | JPromise _ => Normal PENDING
    | JBool true => Normal LOADED
    | JBool false => Normal ERROR
    | _ => Throw Unreachable_state
    end.
Proof.
  unfold getStatus. rewrite isPromise_spec.
  destruct (getValue cache src) as [| |[]|z|s|p|f|o]; reflexivity.
Qed.

(** Every name [Object.prototype] defines reads as a function or an object. *)
Lemma Object_prototype_value (key : string) (v : JsValue) :
  Object_prototype key = Some v ->
  (exists f, v = JFunction f) \/ (exists o, v = JObject o).
Proof.
  unfold Object_prototype. repeat case_bool_decide; intros ?; simplify_eq; eauto.
Qed.

Lemma getValue_own (cache : Cache) (src : string) (v : JsValue) :
  cache !! src = Some v -> getValue cache src = v.
Proof. unfold getValue, prop_get. intros ->. reflexivity. Qed.

Lemma getValue_absent (cache : Cache) (src : string) :
  cache !! src = None -> Object_prototype src = None -> getValue cache src = JUndefined.
Proof. unfold getValue, prop_get. intros -> ->. reflexivity. Qed.

(** When [getStatus] answers [PENDING], the entry is an own property holding a
    promise. *)
Lemma getStatus_PENDING_inv (cache : Cache) (src : string) :
  getStatus cache src = Normal PENDING ->
  exists p, cache !! src = Some (JPromise p) /\ getValue cache src = JPromise p.
Proof.
  rewrite getStatus_cases. unfold getValue, prop_get.
  destruct (cache !! src) as [v|] eqn:E.
  - destruct v as [| |[]|z|s|p|f|o]; intros H; simplify_eq. eauto.
  - destruct (Object_prototype src) as [v|] eqn:P; simpl.
    + destruct (Object_prototype_value _ _ P) as [[f ->]|[o ->]]; discriminate.
    + discriminate.
Qed.

(** When [getStatus] answers [IDLE], nothing is stored or inherited under the
    name, or [undefined] itself is stored. *)
Lemma getStatus_IDLE_inv (cache : Cache) (src : string) :
  getStatus cache src = Normal IDLE ->
  (cache !! src = None /\ Object_prototype src = None) \/ cache !! src = Some JUndefined.
Proof.
  rewrite getStatus_cases. unfold getValue, prop_get.
  destruct (cache !! src) as [v|] eqn:E.
  - destruct v as [| |[]|z|s|p|f|o]; intros H; simplify_eq. eauto.
  - destruct (Object_prototype src) as [v|] eqn:P; simpl.
    + destruct (Object_prototype_value _ _ P) as [[f ->]|[o ->]]; discriminate.
    + eauto.
Qed.

(** What [getStatus] answers for a name that is not inherited: [IDLE] without
    an entry, and the class of the stored value with one. *)
Lemma getStatus_spec (cache : Cache) (src : string) :
  (cache !! src = None -> Object_prototype src = None -> getStatus cache src = Normal IDLE) /\
  (forall p, cache !! src = Some (JPromise p) -> getStatus cache src = Normal PENDING) /\
  (cache !! src = Some (JBool true) -> getStatus cache src = Normal LOADED) /\
  (cache !! src = Some (JBool false) -> getStatus cache src = Normal ERROR).
Proof.
  rewrite getStatus_cases. repeat split.
  - intros H1 H2. by rewrite getValue_absent.
  - intros p H. by rewrite (getValue_own _ _ _ H).
  - intros H. by rewrite (getValue_own _ _ _ H).
  - intros H. by rewrite (getValue_own _ _ _ H).
Qed.

(** C3. [getStatus] answers [IDLE] for a URL the cache has no entry for: this
    fails for a URL that is the name of a property every object inherits.
    The cache of a fresh provider has no entry for ["toString"], and
    [getStatus] throws for it instead of answering [IDLE]. *)
Theorem getStatus_inherited_name_throws :
  store initial_world !! "toString" = None /\
  getValue (store initial_world) "toString" = JFunction "toString" /\
  getStatus (store initial_world) "toString" = Throw Unreachable_state.
Proof. repeat split. Qed.

(** ** Worlds stay well formed *)

Lemma cache_ok_empty (fs : list string) : cache_ok fs ∅.
Proof. intros k v H. by rewrite lookup_empty in H. Qed.

Lemma cache_ok_mono (fs : list string) (x : string) (c : Cache) :
  cache_ok fs c -> cache_ok (fs ++ [x]) c.
Proof.
  intros H k v Hk. destruct (H k v Hk) as [Hp [(p & -> & Hf)|Hb]]; split; auto.
  left. exists p. split; [done|]. by apply lookup_app_l_Some.
Qed.

Lemma cache_ok_insert (fs : list string) (c : Cache) (k : string) (v : JsValue) :
  cache_ok fs c -> plain_name k ->
  ((exists p, v = JPromise p /\ fs !! p = Some k) \/ (exists b, v = JBool b)) ->
  cache_ok fs (<[k := v]> c).
Proof.
  intros H Hk Hv k' v'. rewrite lookup_insert. case_decide as E.
  - intros [= <-]. by subst k'.
  - apply H.
Qed.

Lemma initial_world_ok : world_ok initial_world.
Proof.
  split; simpl.
  - apply cache_ok_empty.
  - apply Forall_singleton, cache_ok_empty.
  - constructor.
Qed.

(** An action [loadImage] can dispatch: the URL is a plain name, and a stored
    promise belongs to a fetch of it. *)
Definition action_ok (fs : list string) (a : Action) : Prop :=
  match a with
  | willLoad src v => plain_name src /\ exists p, v = JPromise p /\ fs !! p = Some src
  | didLoad src | didCatch src => plain_name src
  | otherAction _ => True
  end.

Lemma dispatch_ok (a : Action) (w : World) :
  world_ok w -> action_ok (fetched w) a -> world_ok (dispatch a w).
Proof.
  intros [Hs Ha Hp] Hact.
  assert (cache_ok (fetched w) (reducer (store w) a)) as Hnew.
  { destruct a as [src v|src|src|ty]; simpl in *.
    - destruct Hact as [Hn Hv]. apply cache_ok_insert; auto.
    - apply cache_ok_insert; eauto.
    - apply cache_ok_insert; eauto.
    - done. }
  destruct a; simpl; split; simpl; auto;
    apply Forall_app; split; auto; apply Forall_singleton; exact Hnew.
Qed.

Lemma dispatch_fetched (a : Action) (w : World) : fetched (dispatch a w) = fetched w.
Proof. by destruct a. Qed.

Lemma dispatch_settled (a : Action) (w : World) : settled (dispatch a w) = settled w.
Proof. by destruct a. Qed.

Lemma dispatch_suspended (a : Action) (w : World) : suspended (dispatch a w) = suspended w.
Proof. by destruct a. Qed.

#[local] Arguments dispatch : simpl never.

Lemma loadImage_resume_ok (src : string) (node : Element) (a : Awaited) (w : World) :
  world_ok w -> plain_name src -> world_ok (snd (loadImage_resume src node a w)).
Proof.
  intros Hw Hsrc. unfold loadImage_resume.
  destruct (destructure_height a) as [h|e]; simpl.
  - apply dispatch_ok; [|exact Hsrc].
    destruct (elem_parent node); [|exact Hw].
    destruct Hw as [Hs Ha Hp]. by split.
  - by apply dispatch_ok.
Qed.

Lemma loadImage_resume_fetched (src : string) (node : Element) (a : Awaited) (w : World) :
  fetched (snd (loadImage_resume src node a w)) = fetched w.
Proof.
  unfold loadImage_resume. destruct (destructure_height a); cbn [snd];
    rewrite dispatch_fetched; [by destruct (elem_parent node)|done].
Qed.

Lemma await_ok (v : JsValue) (src : string) (node : Element) (w : World) :
  world_ok w -> plain_name src ->
  (forall p, v = JPromise p -> fetched w !! p = Some src) ->
  world_ok (snd (await v src node w)).
Proof.
  intros Hw Hsrc Hv. unfold await.
  assert (forall a, world_ok (let '(b, w') := loadImage_resume src node a w in (Resolves b, w')).2) as Hres.
  { intros a. pose proof (loadImage_resume_ok src node a w Hw Hsrc) as H.
    by destruct (loadImage_resume src node a w). }
  destruct v; try apply Hres.
  destruct (settled w !! p) as [[h|]|]; try apply Hres.
  simpl. destruct Hw as [Hs Ha Hp]. split; simpl; auto.
  apply Forall_app. split; [done|]. apply Forall_singleton. split; simpl; auto.
Qed.

Lemma await_fetched (v : JsValue) (src : string) (node : Element) (w : World) :
  fetched (snd (await v src node w)) = fetched w.
Proof.
  unfold await.
  assert (forall a, fetched (let '(b, w') := loadImage_resume src node a w in (Resolves b, w')).2
                    = fetched w) as Hres.
  { intros a. pose proof (loadImage_resume_fetched src node a w) as H.
    by destruct (loadImage_resume src node a w). }
  destruct v; try apply Hres.
  destruct (settled w !! p) as [[h|]|]; try apply Hres. reflexivity.
Qed.

Lemma fetchImg_ok (src : string) (w : World) : world_ok w -> world_ok (snd (fetchImg src w)).
Proof.
  intros [Hs Ha Hp]. split; simpl.
  - by apply cache_ok_mono.
  - eapply Forall_impl; [exact Ha|]. intros api. apply cache_ok_mono.
  - eapply Forall_impl; [exact Hp|]. intros s [H1 H2]. split; [done|].
    by apply lookup_app_l_Some.
Qed.

Lemma cache_ok_IDLE (fs : list string) (cache : Cache) (src : string) :
  cache_ok fs cache -> getStatus cache src = Normal IDLE -> plain_name src.
Proof.
  intros Hc Hst. destruct (getStatus_IDLE_inv _ _ Hst) as [[_ H]|H]; [done|].
  by destruct (Hc _ _ H).
Qed.

Lemma cache_ok_PENDING (fs : list string) (cache : Cache) (src : string) :
  cache_ok fs cache -> getStatus cache src = Normal PENDING ->
  exists p, getValue cache src = JPromise p /\ plain_name src /\ fs !! p = Some src.
Proof.
  intros Hc Hst. destruct (getStatus_PENDING_inv _ _ Hst) as (p & Hown & Hval).
  exists p. destruct (Hc _ _ Hown) as [Hn [(q & [= <-] & Hq)|[b [=]]]]. auto.
Qed.

Lemma loadImage_ok (cache : Cache) (src : string) (node : Element) (w : World) :
  world_ok w -> cache_ok (fetched w) cache -> world_ok (snd (loadImage cache src node w)).
Proof.
  intros Hw Hc. unfold loadImage.
  destruct (getStatus cache src) as [[| | |]|e] eqn:Hst; try exact Hw.
  - pose proof (cache_ok_IDLE _ _ _ Hc Hst) as Hn.
    cbn [fetchImg]. apply await_ok; [|done|].
    + apply dispatch_ok; [exact (fetchImg_ok src w Hw)|].
      simpl. split; [done|]. eexists. split; [done|].
      by apply list_lookup_middle.
    + intros p [= <-]. rewrite dispatch_fetched. simpl. by apply list_lookup_middle.
  - destruct (cache_ok_PENDING _ _ _ Hc Hst) as (p & -> & Hn & Hp).
    apply await_ok; [done..|]. by intros q [= <-].
Qed.

Lemma loadImage_fetched_prefix (cache : Cache) (src : string) (node : Element) (w : World) :
  fetched w `prefix_of` fetched (snd (loadImage cache src node w)).
Proof.
  unfold loadImage. destruct (getStatus cache src) as [[| | |]|e]; cbn [snd fetchImg]; try done.
  - rewrite await_fetched, dispatch_fetched. simpl. by apply prefix_app_r.
  - by rewrite await_fetched.
Qed.

Lemma Forall_filter_keep {X : Type} (P Q : X -> Prop) `{!forall x, Decision (Q x)}
    (l : list X) :
  Forall P l -> Forall P (filter Q l).
Proof.
  rewrite !Forall_forall. intros HP x Hx. apply list_elem_of_filter in Hx as [_ Hx]. auto.
Qed.

Lemma resume_all_ok (a : Awaited) (waiting : list Suspended) (w : World) :
  world_ok w -> Forall (fun s => plain_name (sus_src s)) waiting ->
  world_ok (resume_all a waiting w).
Proof.
  unfold resume_all. revert w. induction waiting as [|s waiting IH]; intros w Hw Hall; [done|].
  apply Forall_cons in Hall as [Hs Hall]. simpl. apply IH; [|done].
  by apply loadImage_resume_ok.
Qed.

Lemma step_ok (w : World) (ev : Event) : world_ok w -> world_ok (step w ev).
Proof.
  intros Hw. destruct ev as [k src node|ms| |p s]; simpl.
  - unfold call_loadImage. destruct (apis w !! k) as [api|] eqn:E; [|done].
    destruct Hw as [Hs Ha Hp]. split; simpl; auto.
    apply Forall_insert; [done|]. simpl.
    exact (proj1 (Forall_lookup _ _) Ha _ _ E).
  - destruct Hw as [Hs Ha Hp]. by split.
  - unfold fire_timer. destruct (take_due _ _) as [[t rest]|]; [|done].
    assert (world_ok (MkWorld (store w) (apis w) (now w) (MkTimers (next_timer (timers w)) rest)
                              (fetched w) (settled w) (suspended w) (styleHeight w))) as Hw1.
    { destruct Hw as [Hs Ha Hp]. by split. }
    destruct (apis w !! rc_api (timer_callback t)) as [api|] eqn:E; [|done].
    apply loadImage_ok; [done|]. simpl.
    destruct Hw as [Hs Ha Hp]. exact (proj1 (Forall_lookup _ _) Ha _ _ E).
  - unfold settle. destruct (_ && _); [|done].
    destruct Hw as [Hs Ha Hp]. apply resume_all_ok.
    + split; simpl; auto. by apply Forall_filter_keep.
    + apply Forall_filter_keep. eapply Forall_impl; [exact Hp|]. by intros x [H _].
Qed.

Lemma run_ok (evs : list Event) (w : World) : world_ok w -> world_ok (run evs w).
Proof.
  unfold run. revert w. induction evs as [|ev evs IH]; intros w Hw; [done|].
  simpl. apply IH. by apply step_ok.
Qed.

Lemma reachable_ok (w : World) : reachable w -> world_ok w.
Proof. intros [evs ->]. apply run_ok, initial_world_ok. Qed.

(** ** The load coordinator *)

(** The [PENDING] branch of [loadImage].  A call that finds the URL [PENDING]
    in the cache of its own [imgLoaderApi] value starts no fetch: it awaits the
    promise stored for the URL, which is the promise of a fetch of that very
    URL, and while that fetch is in flight the call parks on it and changes
    nothing else. *)
Theorem loadImage_pending_joins_fetch (evs : list Event) (k : nat) (api : Api)
    (src : string) (node : Element) :
  apis (run evs initial_world) !! k = Some api ->
  getStatus (api_cache api) src = Normal PENDING ->
  exists p,
    getValue (api_cache api) src = JPromise p /\
    fetched (run evs initial_world) !! p = Some src /\
    loadImage (api_cache api) src node (run evs initial_world)
      = await (JPromise p) src node (run evs initial_world) /\
    fetched (snd (loadImage (api_cache api) src node (run evs initial_world)))
      = fetched (run evs initial_world) /\
    (settled (run evs initial_world) !! p = None ->
     loadImage (api_cache api) src node (run evs initial_world)
       = (Awaits p, park p src node (run evs initial_world))).
Proof.
  intros Hapi Hst. set (w := run evs initial_world) in *.
  assert (world_ok w) as Hw by apply run_ok, initial_world_ok.
  pose proof (proj1 (Forall_lookup _ _) (ok_apis w Hw) _ _ Hapi) as Hc.
  destruct (cache_ok_PENDING _ _ _ Hc Hst) as (p & Hval & _ & Hp).
  exists p. unfold loadImage. rewrite Hst, Hval. repeat split; auto.
  - apply await_fetched.
  - intros Hnone. unfold await. by rewrite Hnone.
Qed.

Lemma loadImage_pending_joins_fetch_witness :
  (apis (run [EvCall 0 "b.png" (img 2); EvTick 16; EvFire] initial_world) !! 1
     = Some (imgLoaderApi 1 {["b.png" := JPromise 0]}) /\
   getStatus (api_cache (imgLoaderApi 1 {["b.png" := JPromise 0]})) "b.png" = Normal PENDING) /\
  exists p,
    getValue (api_cache (imgLoaderApi 1 {["b.png" := JPromise 0]})) "b.png" = JPromise p /\
    fetched (run [EvCall 0 "b.png" (img 2); EvTick 16; EvFire] initial_world) !! p
      = Some "b.png" /\
    loadImage (api_cache (imgLoaderApi 1 {["b.png" := JPromise 0]})) "b.png" (img 3)
        (run [EvCall 0 "b.png" (img 2); EvTick 16; EvFire] initial_world)
      = await (JPromise p) "b.png" (img 3)
          (run [EvCall 0 "b.png" (img 2); EvTick 16; EvFire] initial_world) /\
    fetched (snd (loadImage (api_cache (imgLoaderApi 1 {["b.png" := JPromise 0]})) "b.png"
                    (img 3) (run [EvCall 0 "b.png" (img 2); EvTick 16; EvFire] initial_world)))
      = fetched (run [EvCall 0 "b.png" (img 2); EvTick 16; EvFire] initial_world) /\
    (settled (run [EvCall 0 "b.png" (img 2); EvTick 16; EvFire] initial_world) !! p = None ->
     loadImage (api_cache (imgLoaderApi 1 {["b.png" := JPromise 0]})) "b.png" (img 3)
         (run [EvCall 0 "b.png" (img 2); EvTick 16; EvFire] initial_world)
       = (Awaits p, park p "b.png" (img 3)
                      (run [EvCall 0 "b.png" (img 2); EvTick 16; EvFire] initial_world))).
Proof.
  split.
  - split; vm_compute; reflexivity.
  - apply (loadImage_pending_joins_fetch
             [EvCall 0 "b.png" (img 2); EvTick 16; EvFire] 1
             (imgLoaderApi 1 {["b.png" := JPromise 0]}) "b.png" (img 3));
      vm_compute; reflexivity.
Defined.

(** The [LOADED] and [ERROR] branches of [loadImage].  A call that finds the
    URL [LOADED] or [ERROR] in the cache of its own [imgLoaderApi] value
    resolves to [true], respectively [false], and leaves the world as it
    was. *)
Theorem loadImage_settled_noop (cache : Cache) (src : string) (node : Element)
    (w : World) (status : Status) :
  getStatus cache src = Normal status ->
  status = LOADED \/ status = ERROR ->
  loadImage cache src node w = (Resolves (bool_decide (status = LOADED)), w).
Proof.
  intros Hst [-> | ->]; unfold loadImage; rewrite Hst; reflexivity.
Qed.

Lemma loadImage_settled_noop_witness :
  (getStatus {["b.png" := JBool true]} "b.png" = Normal LOADED /\
   (LOADED = LOADED \/ LOADED = ERROR)) /\
  loadImage {["b.png" := JBool true]} "b.png" (img 2) initial_world
    = (Resolves true, initial_world).
Proof.
  split.
  - split; [reflexivity|by left].
  - exact (loadImage_settled_noop {["b.png" := JBool true]} "b.png" (img 2) initial_world
             LOADED eq_refl (or_introl eq_refl)).
Defined.

(** C9. The branch of [getStatus] that throws "Unreachable state" is reached
    in every world the events lead to, with no stored value out of place: the
    cache never has an entry for ["toString"], and reading it finds the method
    every object inherits, which is neither [undefined], a promise nor a
    boolean. *)
Theorem unreachable_state_is_reached (evs : list Event) :
  store (run evs initial_world) !! "toString" = None /\
  getStatus (store (run evs initial_world)) "toString" = Throw Unreachable_state.
Proof.
  assert (store (run evs initial_world) !! "toString" = None) as Hnone.
  { destruct (store (run evs initial_world) !! "toString") as [v|] eqn:E; [|done].
    pose proof (ok_store _ (run_ok evs _ initial_world_ok) _ _ E) as [Hn _].
    discriminate Hn. }
  split; [done|].
  unfold getStatus, getValue, prop_get. by rewrite Hnone.
Qed.

(** The same for every name [Object.prototype] defines. *)
Lemma getStatus_inherited_throws (evs : list Event) (key : string) (v : JsValue) :
  Object_prototype key = Some v ->
  getStatus (store (run evs initial_world)) key = Throw Unreachable_state.
Proof.
  intros Hv.
  assert (store (run evs initial_world) !! key = None) as Hnone.
  { destruct (store (run evs initial_world) !! key) as [u|] eqn:E; [|done].
    pose proof (ok_store _ (run_ok evs _ initial_world_ok) _ _ E) as [Hn _].
    unfold plain_name in Hn. congruence. }
  rewrite getStatus_cases. unfold getValue, prop_get. rewrite Hnone, Hv. simpl.
  by destruct (Object_prototype_value _ _ Hv) as [[f ->]|[o ->]].
Qed.

(** Every value the events store is classified: an entry of a reachable cache
    makes [getStatus] answer [PENDING], [LOADED] or [ERROR]. *)
Lemma getStatus_entry_classified (evs : list Event) (src : string) (v : JsValue) :
  store (run evs initial_world) !! src = Some v ->
  exists s, getStatus (store (run evs initial_world)) src = Normal s /\ s <> IDLE.
Proof.
  intros E.
  pose proof (ok_store _ (run_ok evs _ initial_world_ok) _ _ E) as [_ Hv].
  rewrite getStatus_cases, (getValue_own _ _ _ E).
  destruct Hv as [(p & -> & _)|[[] ->]]; eauto.
Qed.

(** For a plain name [getStatus] never throws in a reachable world. *)
Lemma getStatus_plain_name_total (evs : list Event) (src : string) :
  plain_name src -> exists s, getStatus (store (run evs initial_world)) src = Normal s.
Proof.
  intros Hn. destruct (store (run evs initial_world) !! src) as [v|] eqn:E.
  - destruct (getStatus_entry_classified _ _ _ E) as (s & Hs & _). eauto.
  - exists IDLE. by apply getStatus_spec.
Qed.

(** C2. The status of a URL can go back from [LOADED] to [PENDING]: on the
    page [stale_page], the debounce timer of an older [imgLoaderApi] value runs
    [loadImage] against the cache of its own render, in which ["a.png"] is
    still [IDLE], after ["a.png"] has been loaded; it fetches the image again
    and stores the new promise over the outcome. *)
Theorem stale_loadImage_reverts_status :
  stale_page 8 =
    run [ EvCall 0 "a.png" (img 1); EvCall 0 "b.png" (img 2); EvTick 16; EvFire;
          EvCall 1 "a.png" (img 1); EvTick 5; EvSettle 0 (Fulfilled 40);
          EvCall 2 "a.png" (img 1); EvTick 11; EvFire;
          EvTick 2; EvSettle 1 (Fulfilled 30); EvTick 3; EvFire ] initial_world /\
  stale_page 8 = step (step (stale_page 7) (EvTick 3)) EvFire /\
  getStatus (store (stale_page 7)) "a.png" = Normal LOADED /\
  getStatus (store (stale_page 8)) "a.png" = Normal PENDING /\
  fetched (stale_page 8) = ["b.png"; "a.png"; "a.png"].
Proof.
  split; [vm_compute; reflexivity|].
  split; [vm_compute; reflexivity|].
  split; [vm_compute; reflexivity|].
  split; vm_compute; reflexivity.
Qed.

(** C1. A URL whose fetch is in flight is fetched again.  On [stale_page],
    after the first timer for ["a.png"] has run, the provider shows ["a.png"]
    as [PENDING], promise 1 is unsettled and one call waits on it.  The timer
    still pending belongs to an older [imgLoaderApi] value, in whose cache
    ["a.png"] is [IDLE]: when it runs, [loadImage] does not join promise 1 but
    calls [fetchImg] once more and stores the new promise over the old one, so
    two fetches of ["a.png"] are in flight and the two callers wait on
    different promises. *)
Theorem inflight_url_is_fetched_again :
  inflight_page =
    run [ EvCall 0 "a.png" (img 1); EvCall 0 "b.png" (img 2); EvTick 16; EvFire;
          EvCall 1 "a.png" (img 1); EvTick 5; EvSettle 0 (Fulfilled 40);
          EvCall 2 "a.png" (img 1); EvTick 11; EvFire;
          EvTick 5; EvFire ] initial_world /\
  (getStatus (store (stale_page 6)) "a.png" = Normal PENDING /\
   getStatus (current_cache (stale_page 6)) "a.png" = Normal PENDING /\
   getValue (store (stale_page 6)) "a.png" = JPromise 1 /\
   settled (stale_page 6) !! 1 = None /\
   fetched (stale_page 6) = ["b.png"; "a.png"] /\
   suspended (stale_page 6) = [MkSuspended 1 "a.png" (img 1)]) /\
  (map timer_callback (pending (timers (stale_page 6))) = [MkRawCall 2 "a.png" (img 1)] /\
   exists api, apis (stale_page 6) !! 2 = Some api /\
               getStatus (api_cache api) "a.png" = Normal IDLE) /\
  (fetched inflight_page = ["b.png"; "a.png"; "a.png"] /\
   settled inflight_page !! 1 = None /\
   settled inflight_page !! 2 = None /\
   getValue (store inflight_page) "a.png" = JPromise 2 /\
   suspended inflight_page
     = [MkSuspended 1 "a.png" (img 1); MkSuspended 2 "a.png" (img 1)]).
Proof.
  split; [vm_compute; reflexivity|].
  split; [repeat (split; [vm_compute; reflexivity|]); vm_compute; reflexivity|].
  split.
  - split; [vm_compute; reflexivity|].
    eexists. split; [vm_compute; reflexivity|]. vm_compute; reflexivity.
  - repeat (split; [vm_compute; reflexivity|]). vm_compute; reflexivity.
Qed.

(** C8. [loadImage] on a URL whose record is settled is no no-op.  On
    [settled_page s] the image of ["a.png"] has loaded or failed: the cache
    holds [true] or [false] for it and no fetch is in flight.  The timer still
    pending belongs to an older [imgLoaderApi] value, in whose cache ["a.png"]
    is [IDLE]: when it runs, [loadImage] returns no outcome but fetches the
    image again, stores the new promise over the recorded outcome and waits
    on it. *)
Theorem settled_url_is_fetched_again (s : Settlement) :
  settled_page s =
    run [ EvCall 0 "a.png" (img 1); EvCall 0 "b.png" (img 2); EvTick 16; EvFire;
          EvCall 1 "a.png" (img 1); EvTick 5; EvSettle 0 (Fulfilled 40);
          EvCall 2 "a.png" (img 1); EvTick 11; EvFire;
          EvTick 2; EvSettle 1 s ] initial_world /\
  (getValue (store (settled_page s)) "a.png" = JBool (succeeded s) /\
   getStatus (store (settled_page s)) "a.png"
     = Normal (if succeeded s then LOADED else ERROR) /\
   getStatus (current_cache (settled_page s)) "a.png"
     = Normal (if succeeded s then LOADED else ERROR) /\
   fetched (settled_page s) = ["b.png"; "a.png"] /\
   suspended (settled_page s) = []) /\
  (map timer_callback (pending (timers (settled_page s))) = [MkRawCall 2 "a.png" (img 1)] /\
   exists api, apis (settled_page s) !! 2 = Some api /\
               getStatus (api_cache api) "a.png" = Normal IDLE) /\
  (fetched (run [EvTick 3; EvFire] (settled_page s)) = ["b.png"; "a.png"; "a.png"] /\
   getValue (store (run [EvTick 3; EvFire] (settled_page s))) "a.png" = JPromise 2 /\
   getStatus (store (run [EvTick 3; EvFire] (settled_page s))) "a.png" = Normal PENDING /\
   suspended (run [EvTick 3; EvFire] (settled_page s)) = [MkSuspended 2 "a.png" (img 1)]).
Proof.
  destruct s as [h|].
  - split; [vm_compute; reflexivity|].
    split; [repeat (split; [vm_compute; reflexivity|]); vm_compute; reflexivity|].
    split.
    + split; [vm_compute; reflexivity|].
      eexists. split; [vm_compute; reflexivity|]. vm_compute; reflexivity.
    + repeat (split; [vm_compute; reflexivity|]). vm_compute; reflexivity.
  - split; [vm_compute; reflexivity|].
    split; [repeat (split; [vm_compute; reflexivity|]); vm_compute; reflexivity|].
    split.
    + split; [vm_compute; reflexivity|].
      eexists. split; [vm_compute; reflexivity|]. vm_compute; reflexivity.
    + repeat (split; [vm_compute; reflexivity|]). vm_compute; reflexivity.
Qed.

(** ** The hook and the component *)

(** C5. Under a provider, [useImgLoader] returns the placeholder while the
    status of the URL is [IDLE] or [PENDING], the URL itself once it is
    [LOADED], and throws once it is [ERROR]. *)
Theorem useImgLoader_display (api : Api) (src : string) (config : ImgLoaderConfig)
    (status : Status) :
  getStatus (api_cache api) src = Normal status ->
  useImgLoader (Some api) src config =
    match status with
    | IDLE | PENDING => Normal (default DEFAULT_PLACEHOLDER (placeholder config))
    | LOADED => Normal src
    | ERROR => Throw (Error ("SimpleImg: Failed to load img: " +:+ src))
    end.
Proof.
  intros Hst. unfold useImgLoader. cbn [useImgLoaderContext mbind Completion_bind].
  rewrite Hst. by destruct status.
Qed.

Lemma useImgLoader_display_witness :
  getStatus (api_cache (imgLoaderApi 0 {["c.png" := JBool false]})) "c.png" = Normal ERROR /\
  useImgLoader (Some (imgLoaderApi 0 {["c.png" := JBool false]})) "c.png" empty_config
    = Throw (Error "SimpleImg: Failed to load img: c.png").
Proof.
  split; [reflexivity|].
  exact (useImgLoader_display (imgLoaderApi 0 {["c.png" := JBool false]}) "c.png"
           empty_config ERROR eq_refl).
Defined.

(** C10. Without a [placeholder] option, what [useImgLoader] returns, and what
    [SimpleImg] gives its [img] as [src], while the status is [IDLE] or
    [PENDING] is the built-in transparent GIF. *)
Theorem default_placeholder_shown (api : Api) (src : string) (status : Status)
    (lazy : option bool) (node : option Element) (importance : option string)
    (width height : JsValue) :
  getStatus (api_cache api) src = Normal status ->
  status = IDLE \/ status = PENDING ->
  useImgLoader (Some api) src (MkConfig lazy node None)
    = Normal "data:image/gif;base64,R0lGODlhAQABAAD/ACwAAAAAAQABAAACADs=" /\
  img_src <$> SimpleImg (Some api) node (MkProps (Some src) importance None width height)
    = Normal "data:image/gif;base64,R0lGODlhAQABAAD/ACwAAAAAAQABAAACADs=".
Proof.
  intros Hst Hor.
  unfold SimpleImg, useImgLoader.
  cbn [prop_src prop_placeholder placeholder default from_option id
       useImgLoaderContext mbind Completion_bind].
  rewrite Hst. destruct Hor as [-> | ->]; split; reflexivity.
Qed.

Lemma default_placeholder_shown_witness :
  (getStatus (api_cache (imgLoaderApi 0 ∅)) "a.png" = Normal IDLE /\
   (IDLE = IDLE \/ IDLE = PENDING)) /\
  useImgLoader (Some (imgLoaderApi 0 ∅)) "a.png" (MkConfig (Some true) (Some (img 1)) None)
    = Normal "data:image/gif;base64,R0lGODlhAQABAAD/ACwAAAAAAQABAAACADs=" /\
  img_src <$> SimpleImg (Some (imgLoaderApi 0 ∅)) (Some (img 1))
                (MkProps (Some "a.png") (Some "low") None JUndefined JUndefined)
    = Normal "data:image/gif;base64,R0lGODlhAQABAAD/ACwAAAAAAQABAAACADs=".
Proof.
  split.
  - split; [reflexivity|by left].
  - exact (default_placeholder_shown (imgLoaderApi 0 ∅) "a.png" IDLE (Some true)
             (Some (img 1)) (Some "low") JUndefined JUndefined eq_refl (or_introl eq_refl)).
Defined.

(** C6. Where [IntersectionObserver] does not exist, the effect of a lazy
    [IDLE] image calls [loadImage] and then goes on to construct an observer:
    the effect ends in a [ReferenceError] instead of ending after the call. *)
Theorem lazy_fallback_still_constructs_observer (src : string) (id : nat)
    (parent : option nat) (ph : option string) (entry dev : bool) :
  supportsIntersectionObserver (MkPlatform true false entry dev) = false /\
  useImgLoader_effect (MkPlatform true false entry dev) IDLE src
      (MkConfig (Some true) (Some (MkElement id true parent)) ph)
    = MkEffectRun
        ((if dev then [ConsoleError IntersectionObserver_warning] else [])
         ++ [CallLoadImage src (MkElement id true parent)])
        (Throw (ReferenceError "IntersectionObserver is not defined")).
Proof. split; reflexivity. Qed.

(** The eager path of the same effect, for comparison: one call, and a normal
    end with nothing to clean up. *)
Lemma eager_effect_calls_loadImage (pf : Platform) (src : string) (id : nat)
    (parent : option nat) (ph : option string) :
  useImgLoader_effect pf IDLE src (MkConfig (Some false) (Some (MkElement id true parent)) ph)
    = MkEffectRun [CallLoadImage src (MkElement id true parent)] (Normal None).
Proof. reflexivity. Qed.

(** ** The debounced [loadImage] *)

Section DebounceFacts.
Context {A C : Type}.
Implicit Types (d : Debounced A C) (pg : Page C) (st : Debounced A C * Page C).

(** Settles the side condition of a [filter] step from the known value of
    [is_due]. *)
Ltac due_side H := cbv beta; rewrite H; simpl; tauto.

Lemma last_cons_default (X : Type) (x y : X) (l : list X) :
  List.last (x :: l) y = List.last l x.
Proof.
  revert x y. induction l as [|z l IH]; intros x y; [done|].
  change (List.last (x :: z :: l) y) with (List.last (z :: l) y).
  rewrite (IH z y). symmetry. apply (IH z x).
Qed.

(** The first call on a page with no pending timer arms the timer. *)
Lemma call_at_first d pg (t : nat) (a : A) :
  pending (page_timers pg) = [] -> page_now pg <= t ->
  armed (db_fn d) (db_delay d) (page_ran pg) t a (call_at t a (d, pg)).
Proof.
  intros Hp Hnow. unfold call_at, debounced_call, setTimeout. cbn [fst snd].
  rewrite (Nat.max_r _ _ Hnow).
  assert (pending (clearTimeout (timeoutID d) (page_timers pg)) = []) as Hclear.
  { destruct (timeoutID d); cbn [clearTimeout pending]; by rewrite ?Hp. }
  cbn [page_now page_timers page_ran pending]. rewrite Hclear.
  repeat split; eauto.
Qed.

(** A call made before the pending timer is due cancels it and arms a new one
    for its own arguments; nothing runs. *)
Lemma call_at_next (fn : A -> C) (delay : nat) (ran : list C) (t t' : nat) (a a' : A) st :
  armed fn delay ran t a st -> t <= t' < t + delay ->
  armed fn delay ran t' a' (call_at t' a' st).
Proof.
  destruct st as [d pg]. intros (Hfn & Hdl & Hnow & Hran & id & Hid & Hp) [Hle Hlt].
  cbn [fst snd] in *.
  unfold call_at, debounced_call, setTimeout. cbn [fst snd].
  rewrite Hnow, Hid, Hfn, Hdl, Hran, (Nat.max_r _ _ Hle).
  cbn [clearTimeout pending next_timer page_now page_timers page_ran]. rewrite Hp.
  rewrite filter_cons_False by (cbn [timer_id]; tauto).
  rewrite filter_nil. cbn [app].
  repeat split; eauto.
Qed.

Lemma calls_at_armed (fn : A -> C) (delay : nat) (ran : list C)
    (rest : list (nat * A)) (t : nat) (a : A) st :
  armed fn delay ran t a st -> within_window delay t rest ->
  armed fn delay ran (fst (List.last rest (t, a))) (snd (List.last rest (t, a)))
        (calls_at rest st).
Proof.
  revert t a st. induction rest as [|[t' a'] rest IH]; intros t a st Harm Hwin; [done|].
  destruct Hwin as [Hle Hwin]. rewrite last_cons_default.
  unfold calls_at. cbn [foldl fst snd]. apply IH; [|done].
  by apply call_at_next with (t := t) (a := a).
Qed.

(** While the armed timer is not due nothing runs. *)
Lemma armed_advance_early (fn : A -> C) (delay : nat) (ran : list C) (t T : nat) (a : A) st :
  armed fn delay ran t a st -> 0 < delay -> T < t + delay ->
  page_ran (advance_to T (snd st)) = ran.
Proof.
  destruct st as [d pg]. intros (Hfn & Hdl & Hnow & Hran & id & Hid & Hp) Hpos Hlt.
  cbn [fst snd] in *. unfold advance_to. cbn [page_ran]. rewrite Hp, Hran, Hnow.
  rewrite filter_cons_False, app_nil_r; [done|].
  unfold is_due. cbn [timer_due]. intros H. apply Is_true_true, Nat.leb_le in H. lia.
Qed.

(** Once it is due it runs, once, with the arguments of the call that armed
    it, and no timer is left. *)
Lemma armed_advance_late (fn : A -> C) (delay : nat) (ran : list C) (t T : nat) (a : A) st :
  armed fn delay ran t a st -> t + delay <= T ->
  page_ran (advance_to T (snd st)) = ran ++ [fn a] /\
  pending (page_timers (advance_to T (snd st))) = [].
Proof.
  destruct st as [d pg]. intros (Hfn & Hdl & Hnow & Hran & id & Hid & Hp) Hle.
  cbn [fst snd] in *. unfold advance_to. cbn [page_ran page_timers pending]. rewrite Hp, Hran, Hnow.
  assert (is_due (t `max` T) (MkTimer id (t + delay) (fn a)) = true) as Hdue.
  { unfold is_due. cbn [timer_due]. apply Nat.leb_le. lia. }
  rewrite filter_cons_True by due_side Hdue.
  rewrite filter_cons_False by due_side Hdue.
  done.
Qed.

End DebounceFacts.

(** The debounce of one [imgLoaderApi] value.  Its [loadImage] is called
    [N >= 1] times, each call before the timer of the previous one is due
    (16 ms): nothing runs during the calls, one timer is pending after them,
    due 16 ms after the last call, and when it is due [loadImage] runs exactly
    once, with the arguments of the last call. *)
Theorem debounced_loadImage_last_call_wins (k : nat) (cache : Cache) (pg : Page RawCall)
    (t1 : nat) (a1 : string * Element) (rest : list (nat * (string * Element))) (T : nat) :
  pending (page_timers pg) = [] ->
  page_now pg <= t1 ->
  within_window debounce_delay t1 rest ->
  let st := calls_at ((t1, a1) :: rest) (api_loadImage (imgLoaderApi k cache), pg) in
  let tN := fst (List.last rest (t1, a1)) in
  let aN := snd (List.last rest (t1, a1)) in
  page_ran (snd st) = page_ran pg /\
  map timer_due (pending (page_timers (snd st))) = [tN + 16] /\
  map timer_callback (pending (page_timers (snd st))) = [MkRawCall k (fst aN) (snd aN)] /\
  (T < tN + 16 -> page_ran (advance_to T (snd st)) = page_ran pg) /\
  (tN + 16 <= T ->
   page_ran (advance_to T (snd st)) = page_ran pg ++ [MkRawCall k (fst aN) (snd aN)] /\
   pending (page_timers (advance_to T (snd st))) = []).
Proof.
  intros Hp Hnow Hwin st tN aN.
  set (d0 := api_loadImage (imgLoaderApi k cache)).
  pose proof (call_at_first d0 pg t1 a1 Hp Hnow) as H1.
  pose proof (calls_at_armed (db_fn d0) 16 (page_ran pg) rest t1 a1 _ H1 Hwin) as HN.
  change (calls_at rest (call_at t1 a1 (d0, pg))) with st in HN.
  fold tN aN in HN.
  pose proof HN as (_ & _ & _ & Hran & id & _ & Hpend).
  split; [exact Hran|]. rewrite Hpend. repeat split.
  - intros Hlt. apply (armed_advance_early _ _ _ _ _ _ _ HN); [lia|done].
  - by apply (armed_advance_late _ _ _ _ _ _ _ HN).
  - by apply (armed_advance_late _ _ _ _ _ _ _ HN).
Qed.

Lemma debounced_loadImage_last_call_wins_witness :
  let pg := MkPage 0 no_timers [] in
  let calls := [(5, ("b.png", img 2)); (12, ("c.png", img 3))] in
  (pending (page_timers pg) = [] /\ page_now pg <= 0 /\ within_window debounce_delay 0 calls) /\
  page_ran (advance_to 28
              (snd (calls_at ((0, ("a.png", img 1)) :: calls)
                             (api_loadImage (imgLoaderApi 0 ∅), pg))))
    = [MkRawCall 0 "c.png" (img 3)].
Proof.
  intros pg calls.
  assert (pending (page_timers pg) = []) as H1 by reflexivity.
  assert (page_now pg <= 0) as H2 by (unfold pg; simpl; lia).
  assert (within_window debounce_delay 0 calls) as H3
    by (unfold calls, debounce_delay; simpl; lia).
  split; [exact (conj H1 (conj H2 H3))|].
  refine (proj1 (proj2 (proj2 (proj2 (proj2
    (debounced_loadImage_last_call_wins 0 ∅ pg 0 ("a.png", img 1) calls 28 H1 H2 H3)))) _)).
  unfold calls. simpl. lia.
Defined.

(** C4. Two calls of the exposed [loadImage] within the debounce window both
    run.  On [stale_page] the effect of ["a.png"] calls the [loadImage] of the
    context at 16 ms and again at 21 ms, with the same arguments.  Between the
    two calls ["b.png"] has loaded, so the context holds a new [imgLoaderApi]
    value with a debounce of its own: the second call clears no timer, two
    timers are pending, due at 32 ms and 37 ms, and both run [loadImage]. *)
Theorem exposed_loadImage_calls_both_run :
  stale_page 5 =
    run [ EvCall 0 "a.png" (img 1); EvCall 0 "b.png" (img 2); EvTick 16; EvFire;
          EvCall 1 "a.png" (img 1); EvTick 5; EvSettle 0 (Fulfilled 40);
          EvCall 2 "a.png" (img 1) ] initial_world /\
  (now (stale_page 2) = 16 /\ current_api (stale_page 2) = 1 /\
   effect_events browser (current_api (stale_page 2)) (current_cache (stale_page 2)) two_images
     = [EvCall 1 "a.png" (img 1)]) /\
  (now (stale_page 4) = 21 /\ current_api (stale_page 4) = 2 /\
   effect_events browser (current_api (stale_page 4)) (current_cache (stale_page 4)) two_images
     = [EvCall 2 "a.png" (img 1)]) /\
  (map timer_due (pending (timers (stale_page 3))) = [32] /\
   map timer_due (pending (timers (stale_page 5))) = [32; 37] /\
   map timer_callback (pending (timers (stale_page 5)))
     = [MkRawCall 1 "a.png" (img 1); MkRawCall 2 "a.png" (img 1)]) /\
  (fetched (stale_page 5) = ["b.png"] /\
   pending (timers (run [EvTick 16; EvFire; EvFire] (stale_page 5))) = [] /\
   fetched (run [EvTick 16; EvFire; EvFire] (stale_page 5)) = ["b.png"; "a.png"; "a.png"] /\
   suspended (run [EvTick 16; EvFire; EvFire] (stale_page 5))
     = [MkSuspended 1 "a.png" (img 1); MkSuspended 2 "a.png" (img 1)]).
Proof.
  split; [vm_compute; reflexivity|].
  split; [repeat (split; [vm_compute; reflexivity|]); vm_compute; reflexivity|].
  split; [repeat (split; [vm_compute; reflexivity|]); vm_compute; reflexivity|].
  split; [repeat (split; [vm_compute; reflexivity|]); vm_compute; reflexivity|].
  repeat (split; [vm_compute; reflexivity|]). vm_compute; reflexivity.
Qed.

(** ** The visibility trigger *)

Lemma ratio_positive_spec (r : Q) : ratio_positive r = true <-> (0 < r)%Q.
Proof.
  unfold ratio_positive, Qlt. simpl. rewrite Z.mul_1_r. apply Z.ltb_lt.
Qed.

Lemma unobserve_not_observed (node : Element) (o : Observer) :
  elem_id node ∉ map elem_id (io_targets (unobserve node o)).
Proof.
  unfold unobserve. simpl. intros H. apply list_elem_of_fmap in H as (x & Hx & Hin).
  apply list_elem_of_filter in Hin as [Hne _]. congruence.
Qed.

Lemma unobserve_subset (node : Element) (o : Observer) (i : nat) :
  i ∈ map elem_id (io_targets (unobserve node o)) -> i ∈ map elem_id (io_targets o).
Proof.
  unfold unobserve. simpl. intros H. apply list_elem_of_fmap in H as (x & -> & Hin).
  apply list_elem_of_filter in Hin as [_ Hin]. apply list_elem_of_fmap. eauto.
Qed.

Lemma io_step_inv (src : string) (st : Watch) (ev : IoEvent) :
  watch_inv st -> watch_inv (io_step src st ev).
Proof.
  destruct st as [[targets queue] loads]. intros [Hnd Hin].
  unfold watch_inv, loaded_ids in *. simpl in Hnd, Hin.
  destruct ev as [e| |node]; simpl.
  - unfold observed. simpl. case_bool_decide as Hobs; simpl; [|by split].
    split; [done|]. intros i Hi. destruct (Hin i Hi) as [Ht Hq]. split; [done|].
    rewrite map_app. simpl. intros H. apply elem_of_app in H as [H|H]; [done|].
    apply list_elem_of_singleton in H. subst i. done.
  - destruct queue as [|e rest]; simpl; [by split|].
    destruct (ratio_positive (intersectionRatio e) && elem_is_img (target e)); simpl.
    + assert (elem_id (target e) ∉ map (fun c => elem_id (snd c)) loads) as Hfresh.
      { intros H. destruct (Hin _ H) as [_ Hq]. apply Hq. simpl. left. }
      split.
      * rewrite map_app. simpl. apply NoDup_app. split; [done|]. split.
        -- intros x Hx Hx'. apply list_elem_of_singleton in Hx'. by subst x.
        -- apply NoDup_singleton.
      * intros i Hi. split; [|apply not_elem_of_nil].
        rewrite map_app in Hi. simpl in Hi. apply elem_of_app in Hi as [Hi|Hi].
        -- intros H. apply (unobserve_subset (target e) (MkObserver targets [])) in H.
           by destruct (Hin i Hi).
        -- apply list_elem_of_singleton in Hi. subst i.
           apply (unobserve_not_observed (target e) (MkObserver targets [])).
    + rewrite app_nil_r. split; [done|]. intros i Hi. split; [|apply not_elem_of_nil].
      by destruct (Hin i Hi).
  - split; [done|]. intros i Hi. destruct (Hin i Hi) as [Ht Hq]. split; [|done].
    intros H. by apply (unobserve_subset node (MkObserver targets queue)) in H.
Qed.

Lemma io_run_inv (src : string) (evs : list IoEvent) (st : Watch) :
  watch_inv st -> watch_inv (io_run src evs st).
Proof.
  unfold io_run. revert st. induction evs as [|ev evs IH]; intros st Hst; [done|].
  simpl. apply IH. by apply io_step_inv.
Qed.

(** One observer.  The callback that finds its first entry with a ratio above
    zero on an image calls [loadImage] once, for that element, and unobserves
    it; and whatever the page does with an observer of this callback, no
    element is ever loaded twice by it, and a loaded element is not observed
    by it any more. *)
Theorem visibility_trigger_fires_once (src : string) (o : Observer)
    (e : Entry) (rest : list Entry) (evs : list IoEvent) :
  (0 < intersectionRatio e)%Q ->
  elem_is_img (target e) = true ->
  (handleIntersect src (e :: rest) o = Normal ([(src, target e)], unobserve (target e) o) /\
   observed (target e) (unobserve (target e) o) = false) /\
  (NoDup (loaded_ids (io_run src evs (MkWatch o []))) /\
   forall i, i ∈ loaded_ids (io_run src evs (MkWatch o [])) ->
             i ∉ map elem_id (io_targets (watch_observer (io_run src evs (MkWatch o []))))).
Proof.
  intros Hpos Himg. split.
  - unfold handleIntersect. apply ratio_positive_spec in Hpos. rewrite Hpos, Himg. simpl.
    split; [done|]. unfold observed. apply bool_decide_eq_false, unobserve_not_observed.
  - assert (watch_inv (MkWatch o [])) as H0.
    { split; simpl; [apply NoDup_nil_2|]. intros i Hi. by apply elem_of_nil in Hi. }
    destruct (io_run_inv src evs _ H0) as [Hnd Hin]. split; [done|].
    intros i Hi. by destruct (Hin i Hi).
Qed.

Lemma visibility_trigger_fires_once_witness :
  let e := MkEntry (img 1) (1 # 2) in
  let evs := [IoDetect (MkEntry (img 1) 0); IoNotify; IoDetect e; IoNotify;
              IoDetect (MkEntry (img 1) 1); IoNotify] in
  ((0 < intersectionRatio e)%Q /\ elem_is_img (target e) = true) /\
  watch_loads (io_run "a.png" evs (effect_watch (img 1))) = [("a.png", img 1)] /\
  NoDup (loaded_ids (io_run "a.png" evs (effect_watch (img 1)))).
Proof.
  intros e evs.
  assert ((0 < intersectionRatio e)%Q) as H1 by reflexivity.
  assert (elem_is_img (target e) = true) as H2 by reflexivity.
  split; [exact (conj H1 H2)|]. split; [reflexivity|].
  exact (proj1 (proj2 (visibility_trigger_fires_once "a.png"
           (watch_observer (effect_watch (img 1))) e [] evs H1 H2))).
Defined.

(** C7. The visibility trigger fires twice for one element.  On [lazy_page]
    the lazy image ["a.png"] is in view.  The observer of one effect run
    reports it, calls [loadImage] and unobserves it; before the debounce timer
    of that call runs, ["b.png"] finishes loading, the effect of ["a.png"],
    still [IDLE], runs again with a new observer on the same element, and this
    observer reports it and calls [loadImage] too.  Both calls are for element
    1, each through the [imgLoaderApi] value of its own render, and both
    timers run: ["a.png"] is loaded twice. *)
Theorem visibility_trigger_fires_again :
  lazy_page 9 =
    run [ EvCall 0 "b.png" (img 2); EvTick 16; EvFire;
          EvCall 1 "a.png" (img 1); EvTick 5; EvSettle 0 (Fulfilled 40);
          EvCall 2 "a.png" (img 1); EvTick 11; EvFire;
          EvTick 5; EvFire ] initial_world /\
  (getStatus (current_cache (lazy_page 3)) "a.png" = Normal IDLE /\
   getStatus (current_cache (lazy_page 6)) "a.png" = Normal IDLE /\
   useImgLoader_effect browser IDLE "a.png" (lazily (img 1))
     = MkEffectRun [NewObserver; Observe (img 1)] (Normal (Some (img 1)))) /\
  (handleIntersect "a.png" [MkEntry (img 1) 1] (watch_observer (effect_watch (img 1)))
     = Normal ([("a.png", img 1)], MkObserver [] []) /\
   intersect_events browser (current_api (lazy_page 3)) (current_cache (lazy_page 3)) 1
                    lazy_and_eager = [EvCall 1 "a.png" (img 1)] /\
   intersect_events browser (current_api (lazy_page 6)) (current_cache (lazy_page 6)) 1
                    lazy_and_eager = [EvCall 2 "a.png" (img 1)]) /\
  (map timer_callback (pending (timers (lazy_page 7)))
     = [MkRawCall 1 "a.png" (img 1); MkRawCall 2 "a.png" (img 1)] /\
   fetched (lazy_page 7) = ["b.png"] /\
   fetched (lazy_page 9) = ["b.png"; "a.png"; "a.png"]).
Proof.
  split; [vm_compute; reflexivity|].
  split; [repeat (split; [vm_compute; reflexivity|]); vm_compute; reflexivity|].
  split; [repeat (split; [vm_compute; reflexivity|]); vm_compute; reflexivity|].
  repeat (split; [vm_compute; reflexivity|]). vm_compute; reflexivity.
Qed.

(** ** No way back to [IDLE] *)

Lemma dispatch_keeps (a : Action) (w : World) (k : string) :
  is_Some (store w !! k) -> is_Some (store (dispatch a w) !! k).
Proof.
  intros H. destruct a as [src v|src|src|ty]; unfold dispatch; cbn [store reducer]; [| | |done];
    rewrite lookup_insert_is_Some; destruct (decide (src = k)); auto.
Qed.

Lemma loadImage_resume_keeps (src : string) (node : Element) (a : Awaited) (w : World)
    (k : string) :
  is_Some (store w !! k) -> is_Some (store (snd (loadImage_resume src node a w)) !! k).
Proof.
  intros H. unfold loadImage_resume. destruct (destructure_height a); cbn [snd];
    apply dispatch_keeps; [by destruct (elem_parent node)|done].
Qed.

Lemma await_keeps (v : JsValue) (src : string) (node : Element) (w : World) (k : string) :
  is_Some (store w !! k) -> is_Some (store (snd (await v src node w)) !! k).
Proof.
  intros H. unfold await.
  assert (forall a, is_Some (store (let '(b, w') := loadImage_resume src node a w in
                                    (Resolves b, w')).2 !! k)) as Hres.
  { intros a. pose proof (loadImage_resume_keeps src node a w k H) as H'.
    by destruct (loadImage_resume src node a w). }
  destruct v; try apply Hres.
  destruct (settled w !! p) as [[h|]|]; try apply Hres. exact H.
Qed.

Lemma loadImage_keeps (cache : Cache) (src : string) (node : Element) (w : World)
    (k : string) :
  is_Some (store w !! k) -> is_Some (store (snd (loadImage cache src node w)) !! k).
Proof.
  intros H. unfold loadImage.
  destruct (getStatus cache src) as [[| | |]|e]; cbn [snd fetchImg]; try done.
  - apply await_keeps, dispatch_keeps. exact H.
  - by apply await_keeps.
Qed.

Lemma resume_all_keeps (a : Awaited) (waiting : list Suspended) (w : World) (k : string) :
  is_Some (store w !! k) -> is_Some (store (resume_all a waiting w) !! k).
Proof.
  unfold resume_all. revert w. induction waiting as [|s waiting IH]; intros w H; [done|].
  simpl. apply IH. by apply loadImage_resume_keeps.
Qed.

Lemma step_keeps (w : World) (ev : Event) (k : string) :
  is_Some (store w !! k) -> is_Some (store (step w ev) !! k).
Proof.
  intros H. destruct ev as [k' src node|ms| |p s]; simpl.
  - unfold call_loadImage. by destruct (apis w !! k').
  - done.
  - unfold fire_timer. destruct (take_due _ _) as [[t rest]|]; [|done].
    destruct (apis w !! rc_api (timer_callback t)); [|done].
    by apply loadImage_keeps.
  - unfold settle. destruct (_ && _); [|done]. by apply resume_all_keeps.
Qed.

Lemma run_keeps (evs : list Event) (w : World) (k : string) :
  is_Some (store w !! k) -> is_Some (store (run evs w) !! k).
Proof.
  unfold run. revert w. induction evs as [|ev evs IH]; intros w H; [done|].
  simpl. apply IH. by apply step_keeps.
Qed.

Lemma getStatus_not_IDLE_entry (cache : Cache) (src : string) (s : Status) :
  getStatus cache src = Normal s -> s <> IDLE -> is_Some (cache !! src).
Proof.
  rewrite getStatus_cases. unfold getValue, prop_get.
  destruct (cache !! src) as [v|]; [eauto|].
  destruct (Object_prototype src) as [v|] eqn:P; simpl.
  - destruct (Object_prototype_value _ _ P) as [[f ->]|[o ->]]; discriminate.
  - intros [= <-]. done.
Qed.

(** X4. The part of the forward-only reading that does hold: once the cache of
    the provider shows a URL as [PENDING], [LOADED] or [ERROR], no later event
    makes it [IDLE] again. *)
Lemma status_never_back_to_IDLE (evs later : list Event) (src : string) (s : Status) :
  getStatus (store (run evs initial_world)) src = Normal s -> s <> IDLE ->
  exists s', getStatus (store (run later (run evs initial_world))) src = Normal s' /\
             s' <> IDLE.
Proof.
  intros Hst Hs. pose proof (getStatus_not_IDLE_entry _ _ _ Hst Hs) as Hown.
  apply (run_keeps later) in Hown as [v Hv].
  assert (run later (run evs initial_world) = run (evs ++ later) initial_world) as E
    by (unfold run; by rewrite foldl_app).
  rewrite E in *. by apply getStatus_entry_classified with (v := v).
Qed.

(** ** The scenarios of the specification *)

(** An eager image whose fetch resolves with height 150. *)
Example scenario_loaded :
  let w := run [EvCall 0 "b.png" (img 2); EvTick 16; EvFire; EvSettle 0 (Fulfilled 150)]
               initial_world in
  getStatus (current_cache w) "b.png" = Normal LOADED /\
  useImgLoader (apis w !! current_api w) "b.png" (eager (img 2)) = Normal "b.png" /\
  styleHeight w !! 102 = Some "150px".
Proof. vm_compute. repeat split. Qed.

(** An eager image whose fetch rejects. *)
Example scenario_failed :
  let w := run [EvCall 0 "c.png" (img 3); EvTick 16; EvFire; EvSettle 0 Rejected]
               initial_world in
  getStatus (current_cache w) "c.png" = Normal ERROR /\
  useImgLoader (apis w !! current_api w) "c.png" (eager (img 3))
    = Throw (Error "SimpleImg: Failed to load img: c.png").
Proof. vm_compute. repeat split. Qed.

(** A lazy image that never intersects the viewport: its effect makes no call,
    so nothing is ever fetched and the placeholder stays. *)
Example scenario_never_visible :
  let w := run_effects browser [("a.png", lazily (img 1))] initial_world in
  w = initial_world /\
  io_run "a.png" [IoDetect (MkEntry (img 1) 0); IoNotify] (effect_watch (img 1))
    = effect_watch (img 1) /\
  useImgLoader (apis w !! current_api w) "a.png" (lazily (img 1))
    = Normal DEFAULT_PLACEHOLDER.
Proof. vm_compute. repeat split. Qed.

(* ===================================================================== *)
(** * Further properties of the code *)
(* ===================================================================== *)

(** ** The reducer and the status it leaves *)

(** X1. What an action stores decides the status of its URL, whatever the
    state held before and whatever the URL is called: [PENDING] after
    [willLoad] with a promise, [LOADED] after [didLoad], [ERROR] after
    [didCatch]. *)
Theorem reducer_sets_status (state : Cache) (src : string) (p : nat) :
  getStatus (reducer state (willLoad src (JPromise p))) src = Normal PENDING /\
  getValue (reducer state (willLoad src (JPromise p))) src = JPromise p /\
  getStatus (reducer state (didLoad src)) src = Normal LOADED /\
  getStatus (reducer state (didCatch src)) src = Normal ERROR.
Proof.
  rewrite !getStatus_cases. unfold getValue, prop_get. simpl.
  by rewrite !lookup_insert_eq.
Qed.

(** X2. An action changes the entry of its own URL only: the value and the
    status of every other URL are what they were, and an action the reducer
    does not know changes nothing. *)
Theorem reducer_frame (state : Cache) (a : Action) (src : string) :
  action_src a <> Some src ->
  getValue (reducer state a) src = getValue state src /\
  getStatus (reducer state a) src = getStatus state src.
Proof.
  intros Hne.
  assert (reducer state a !! src = state !! src) as E.
  { destruct a as [s v|s|s|ty]; simpl in *; try done;
      apply lookup_insert_ne; congruence. }
  unfold getStatus, getValue, prop_get. by rewrite E.
Qed.

Lemma reducer_frame_witness :
  action_src (didLoad "b.png") <> Some "a.png" /\
  getValue (reducer {["a.png" := JPromise 0]} (didLoad "b.png")) "a.png"
    = getValue {["a.png" := JPromise 0]} "a.png" /\
  getStatus (reducer {["a.png" := JPromise 0]} (didLoad "b.png")) "a.png"
    = getStatus {["a.png" := JPromise 0]} "a.png".
Proof.
  assert (action_src (didLoad "b.png") <> Some "a.png") as H by discriminate.
  split; [exact H|].
  exact (reducer_frame {["a.png" := JPromise 0]} (didLoad "b.png") "a.png" H).
Defined.

(** X3. In every cache a consumer can read (the cache of any [imgLoaderApi]
    value of a reachable world) an entry is a promise or a boolean:
    [getStatus] answers [PENDING], [LOADED] or [ERROR] for it and never
    throws. *)
Theorem reachable_entries_classified (evs : list Event) (k : nat) (api : Api)
    (src : string) (v : JsValue) :
  apis (run evs initial_world) !! k = Some api ->
  api_cache api !! src = Some v ->
  ((exists p, v = JPromise p /\ getStatus (api_cache api) src = Normal PENDING) \/
   (v = JBool true /\ getStatus (api_cache api) src = Normal LOADED) \/
   (v = JBool false /\ getStatus (api_cache api) src = Normal ERROR)).
Proof.
  intros Hapi Hv.
  pose proof (ok_apis _ (run_ok evs _ initial_world_ok)) as Ha.
  pose proof (proj1 (Forall_lookup _ _) Ha _ _ Hapi _ _ Hv) as [_ Hcls].
  rewrite getStatus_cases, (getValue_own _ _ _ Hv).
  destruct Hcls as [(p & -> & _)|[[] ->]]; eauto.
Qed.

Lemma reachable_entries_classified_witness :
  (apis (run [EvCall 0 "b.png" (img 2); EvTick 16; EvFire] initial_world) !! 1
     = Some (imgLoaderApi 1 {["b.png" := JPromise 0]}) /\
   api_cache (imgLoaderApi 1 {["b.png" := JPromise 0]}) !! "b.png" = Some (JPromise 0)) /\
  ((exists p, JPromise 0 = JPromise p /\
              getStatus (api_cache (imgLoaderApi 1 {["b.png" := JPromise 0]})) "b.png"
                = Normal PENDING) \/
   (JPromise 0 = JBool true /\
    getStatus (api_cache (imgLoaderApi 1 {["b.png" := JPromise 0]})) "b.png" = Normal LOADED) \/
   (JPromise 0 = JBool false /\
    getStatus (api_cache (imgLoaderApi 1 {["b.png" := JPromise 0]})) "b.png" = Normal ERROR)).
Proof.
  assert (apis (run [EvCall 0 "b.png" (img 2); EvTick 16; EvFire] initial_world) !! 1
            = Some (imgLoaderApi 1 {["b.png" := JPromise 0]})) as H1
    by (vm_compute; reflexivity).
  assert (api_cache (imgLoaderApi 1 {["b.png" := JPromise 0]}) !! "b.png"
            = Some (JPromise 0)) as H2 by (vm_compute; reflexivity).
  split; [exact (conj H1 H2)|].
  exact (reachable_entries_classified _ 1 _ "b.png" (JPromise 0) H1 H2).
Defined.

(** An instance: a fetch that fails takes ["a.png"] from [PENDING] to [ERROR],
    not back to [IDLE]. *)
Lemma status_never_back_to_IDLE_witness :
  (getStatus (store (run [EvCall 0 "a.png" (img 1); EvTick 16; EvFire] initial_world)) "a.png"
     = Normal PENDING /\ PENDING <> IDLE) /\
  exists s', getStatus (store (run [EvSettle 0 Rejected]
                                 (run [EvCall 0 "a.png" (img 1); EvTick 16; EvFire]
                                      initial_world))) "a.png" = Normal s' /\
             s' <> IDLE.
Proof.
  assert (getStatus (store (run [EvCall 0 "a.png" (img 1); EvTick 16; EvFire] initial_world))
            "a.png" = Normal PENDING) as H1 by (vm_compute; reflexivity).
  assert (PENDING <> IDLE) as H2 by discriminate.
  split; [exact (conj H1 H2)|].
  exact (status_never_back_to_IDLE _ [EvSettle 0 Rejected] "a.png" PENDING H1 H2).
Defined.

(** X5. Without a provider the hook and the component throw the
    configuration error, whatever the URL, the node and the options are, and
    before anything is read or loaded. *)
Theorem no_provider_throws (src : string) (config : ImgLoaderConfig)
    (node : option Element) (props : SimpleImgProps) :
  useImgLoader None src config =
    Throw (Error ("SimpleImg: Cannot find any ImgLoaderContext value. " +:+
                  "Did you forget to wrap your app with <ImageLoader />?")) /\
  SimpleImg None node props =
    Throw (Error ("SimpleImg: Cannot find any ImgLoaderContext value. " +:+
                  "Did you forget to wrap your app with <ImageLoader />?")).
Proof. split; reflexivity. Qed.

(** ** A load from start to end *)

Lemma loadImage_resume_settled (src : string) (node : Element) (a : Awaited) (w : World) :
  settled (snd (loadImage_resume src node a w)) = settled w.
Proof.
  unfold loadImage_resume. destruct (destructure_height a); cbn [snd];
    rewrite dispatch_settled; [by destruct (elem_parent node)|done].
Qed.

Lemma dispatch_timers (a : Action) (w : World) : timers (dispatch a w) = timers w.
Proof. by destruct a. Qed.

Lemma loadImage_resume_timers (src : string) (node : Element) (a : Awaited) (w : World) :
  timers (snd (loadImage_resume src node a w)) = timers w.
Proof.
  unfold loadImage_resume. destruct (destructure_height a); cbn [snd];
    rewrite dispatch_timers; [by destruct (elem_parent node)|done].
Qed.

Lemma await_settled (v : JsValue) (src : string) (node : Element) (w : World) :
  settled (snd (await v src node w)) = settled w.
Proof.
  unfold await.
  assert (forall a, settled (let '(b, w') := loadImage_resume src node a w in (Resolves b, w')).2
                    = settled w) as Hres.
  { intros a. pose proof (loadImage_resume_settled src node a w) as H.
    by destruct (loadImage_resume src node a w). }
  destruct v; try apply Hres.
  destruct (settled w !! p) as [[h|]|]; try apply Hres. reflexivity.
Qed.

Lemma await_timers (v : JsValue) (src : string) (node : Element) (w : World) :
  timers (snd (await v src node w)) = timers w.
Proof.
  unfold await.
  assert (forall a, timers (let '(b, w') := loadImage_resume src node a w in (Resolves b, w')).2
                    = timers w) as Hres.
  { intros a. pose proof (loadImage_resume_timers src node a w) as H.
    by destruct (loadImage_resume src node a w). }
  destruct v; try apply Hres.
  destruct (settled w !! p) as [[h|]|]; try apply Hres. reflexivity.
Qed.

Lemma loadImage_settled (cache : Cache) (src : string) (node : Element) (w : World) :
  settled (snd (loadImage cache src node w)) = settled w.
Proof.
  unfold loadImage. destruct (getStatus cache src) as [[| | |]|e]; cbn [snd fetchImg]; try done.
  - by rewrite await_settled, dispatch_settled.
  - by rewrite await_settled.
Qed.

Lemma loadImage_timers (cache : Cache) (src : string) (node : Element) (w : World) :
  timers (snd (loadImage cache src node w)) = timers w.
Proof.
  unfold loadImage. destruct (getStatus cache src) as [[| | |]|e]; cbn [snd fetchImg]; try done.
  - by rewrite await_timers, dispatch_timers.
  - by rewrite await_timers.
Qed.

(** A call of [loadImage] starts at most one fetch, and only for its own URL. *)
Lemma loadImage_fetched_cases (cache : Cache) (src : string) (node : Element) (w : World) :
  fetched (snd (loadImage cache src node w)) = fetched w \/
  fetched (snd (loadImage cache src node w)) = fetched w ++ [src].
Proof.
  unfold loadImage. destruct (getStatus cache src) as [[| | |]|e]; cbn [snd fetchImg]; auto.
  - right. by rewrite await_fetched, dispatch_fetched.
  - left. by rewrite await_fetched.
Qed.

Lemma resume_all_settled (a : Awaited) (waiting : list Suspended) (w : World) :
  settled (resume_all a waiting w) = settled w.
Proof.
  unfold resume_all. revert w. induction waiting as [|s waiting IH]; intros w; [done|].
  simpl. by rewrite IH, loadImage_resume_settled.
Qed.

Lemma resume_all_fetched (a : Awaited) (waiting : list Suspended) (w : World) :
  fetched (resume_all a waiting w) = fetched w.
Proof.
  unfold resume_all. revert w. induction waiting as [|s waiting IH]; intros w; [done|].
  simpl. by rewrite IH, loadImage_resume_fetched.
Qed.

Lemma step_settled_ok (w : World) (ev : Event) : settled_ok w -> settled_ok (step w ev).
Proof.
  unfold settled_ok. intros Hw. destruct ev as [k src node|ms| |p s]; simpl.
  - unfold call_loadImage. by destruct (apis w !! k).
  - done.
  - unfold fire_timer. destruct (take_due _ _) as [[t rest]|]; [|done].
    destruct (apis w !! rc_api (timer_callback t)) as [api|]; [|done].
    intros p. rewrite loadImage_settled. cbn [settled]. intros Hp.
    eapply Nat.lt_le_trans; [by apply Hw|].
    apply prefix_length. eapply (loadImage_fetched_prefix _ _ _ (MkWorld _ _ _ _ _ _ _ _)).
  - unfold settle. destruct (bool_decide (p < length (fetched w))) eqn:Hlt; [|done].
    destruct (bool_decide (settled w !! p = None)); [|done]. cbn [andb].
    intros q. rewrite resume_all_settled, resume_all_fetched. cbn [settled fetched].
    rewrite lookup_insert_is_Some. intros [<-|[_ Hq]]; [|by apply Hw].
    by apply bool_decide_eq_true in Hlt.
Qed.

Lemma run_settled_ok (evs : list Event) (w : World) : settled_ok w -> settled_ok (run evs w).
Proof.
  unfold run. revert w. induction evs as [|ev evs IH]; intros w Hw; [done|].
  simpl. apply IH. by apply step_settled_ok.
Qed.

Lemma initial_settled_ok : settled_ok initial_world.
Proof. intros p [s Hs]. simpl in Hs. by rewrite lookup_empty in Hs. Qed.

(** The promise a fetch is about to create is not settled. *)
Lemma next_promise_unsettled (evs : list Event) :
  settled (run evs initial_world) !! length (fetched (run evs initial_world)) = None.
Proof.
  destruct (settled _ !! _) eqn:E; [|done].
  pose proof (run_settled_ok evs _ initial_settled_ok _ (mk_is_Some _ _ E)). lia.
Qed.

Lemma loadImage_idle_started (evs : list Event) (cache : Cache) (src : string)
    (node : Element) :
  getStatus cache src = Normal IDLE ->
  loadImage cache src node (run evs initial_world)
    = (Awaits (length (fetched (run evs initial_world))),
       started src node (run evs initial_world)).
Proof.
  intros Hst. pose proof (next_promise_unsettled evs) as Hp.
  unfold loadImage. rewrite Hst. cbn [fetchImg]. unfold await.
  rewrite dispatch_settled. cbn [settled]. by rewrite Hp.
Qed.

Lemma current_cache_last (w : World) (l : list Api) (x : Api) :
  apis w = l ++ [x] -> current_cache w = api_cache x.
Proof.
  intros E. unfold current_cache, current_api. rewrite E, length_app. cbn [length].
  rewrite Nat.add_1_r. cbn [pred]. by rewrite list_lookup_middle.
Qed.

(** X6. In a reachable world, [loadImage] on a URL it finds [IDLE] starts
    exactly one fetch, of that URL, stores its promise under the URL, parks
    on it, and the provider shows the URL as [PENDING] from then on. *)
Theorem loadImage_idle_starts_fetch (evs : list Event) (cache : Cache) (src : string)
    (node : Element) :
  getStatus cache src = Normal IDLE ->
  loadImage cache src node (run evs initial_world)
    = (Awaits (length (fetched (run evs initial_world))),
       started src node (run evs initial_world)) /\
  fetched (started src node (run evs initial_world))
    = fetched (run evs initial_world) ++ [src] /\
  store (started src node (run evs initial_world))
    = <[src := JPromise (length (fetched (run evs initial_world)))]>
        (store (run evs initial_world)) /\
  getStatus (current_cache (started src node (run evs initial_world))) src = Normal PENDING.
Proof.
  intros Hst. set (w := run evs initial_world).
  split; [by apply loadImage_idle_started|]. split; [reflexivity|]. split; [reflexivity|].
  rewrite (current_cache_last _ (apis w)
             (imgLoaderApi (length (apis w))
                (<[src := JPromise (length (fetched w))]> (store w)))) by reflexivity.
  cbn [api_cache imgLoaderApi].
  rewrite getStatus_cases. unfold getValue, prop_get. by rewrite lookup_insert_eq.
Qed.

Lemma loadImage_idle_starts_fetch_witness :
  getStatus ∅ "a.png" = Normal IDLE /\
  loadImage ∅ "a.png" (img 1) (run [] initial_world)
    = (Awaits 0, started "a.png" (img 1) (run [] initial_world)) /\
  fetched (started "a.png" (img 1) (run [] initial_world)) = ["a.png"] /\
  store (started "a.png" (img 1) (run [] initial_world)) = {["a.png" := JPromise 0]} /\
  getStatus (current_cache (started "a.png" (img 1) (run [] initial_world))) "a.png"
    = Normal PENDING.
Proof.
  split; [reflexivity|].
  exact (loadImage_idle_starts_fetch [] ∅ "a.png" (img 1) eq_refl).
Defined.

Lemma filter_none {X : Type} (P : X -> Prop) `{!forall x, Decision (P x)} (l : list X) :
  Forall (fun x => ~ P x) l -> filter P l = [].
Proof.
  induction 1 as [|x l Hx _ IH]; [done|]. by rewrite filter_cons_False.
Qed.

Lemma filter_all {X : Type} (P : X -> Prop) `{!forall x, Decision (P x)} (l : list X) :
  Forall P l -> filter P l = l.
Proof.
  induction 1 as [|x l Hx _ IH]; [done|]. rewrite filter_cons_True by done. by rewrite IH.
Qed.

(** X7. A load from start to end.  When [loadImage] found the URL [IDLE] and
    the image then loads or fails, the cache records [true] or [false] under
    the URL, the provider shows it as [LOADED] or [ERROR], the parked call is
    gone and no other is disturbed; on success the [style.height] of the
    parent of the image node is set to the height of the image in [px]; on
    failure no style is touched. *)
Theorem fetch_outcome_recorded (evs : list Event) (cache : Cache) (src : string)
    (node : Element) (s : Settlement) :
  getStatus cache src = Normal IDLE ->
  let w := run evs initial_world in
  let w2 := settle (length (fetched w)) s (snd (loadImage cache src node w)) in
  store w2 = <[src := JBool (succeeded s)]> (store w) /\
  getStatus (current_cache w2) src = Normal (if succeeded s then LOADED else ERROR) /\
  suspended w2 = suspended w /\
  fetched w2 = fetched w ++ [src] /\
  styleHeight w2 =
    match s, elem_parent node with
    | Fulfilled h, Some parent => <[parent := pretty (Z.of_N h) +:+ "px"]> (styleHeight w)
    | _, _ => styleHeight w
    end.
Proof.
  intros Hst w w2. subst w2 w.
  rewrite (loadImage_idle_started evs cache src node Hst). cbn [snd].
  pose proof (next_promise_unsettled evs) as Hnone.
  set (w := run evs initial_world) in *.
  assert (Forall (fun x => ~ sus_promise x = length (fetched w)) (suspended w)) as Hold.
  { eapply Forall_impl; [exact (ok_suspended _ (run_ok evs _ initial_world_ok))|].
    intros x [_ Hx] E. apply lookup_lt_Some in Hx. fold w in Hx. lia. }
  unfold settle, started, park.
  rewrite !dispatch_fetched, !dispatch_settled, !dispatch_suspended.
  cbn [fetched settled suspended fetchImg snd].
  rewrite length_app. cbn [length].
  rewrite bool_decide_eq_true_2 by lia. rewrite Hnone.
  rewrite bool_decide_eq_true_2 by done. cbn [andb].
  rewrite !filter_app.
  rewrite (filter_none _ _ Hold).
  rewrite (filter_all (fun x => sus_promise x ≠ length (fetched w))) by exact Hold.
  rewrite filter_cons_True by reflexivity.
  rewrite filter_cons_False by (cbn [sus_promise]; tauto).
  rewrite !filter_nil, app_nil_r. cbn [app].
  unfold resume_all. cbn [foldl sus_src sus_imgNode]. unfold loadImage_resume.
  destruct s as [h|]; cbn [awaited_of destructure_height succeeded snd].
  - destruct (elem_parent node) as [parent|]; unfold dispatch, set_styleHeight;
      cbn [store apis fetched suspended styleHeight reducer template_text];
      (split; [by rewrite insert_insert_eq|]);
      (split; [erewrite current_cache_last by reflexivity; cbn [api_cache imgLoaderApi];
               rewrite getStatus_cases; unfold getValue, prop_get;
               by rewrite lookup_insert_eq|]);
      done.
  - unfold dispatch; cbn [store apis fetched suspended styleHeight reducer].
    split; [by rewrite insert_insert_eq|].
    split; [erewrite current_cache_last by reflexivity; cbn [api_cache imgLoaderApi];
            rewrite getStatus_cases; unfold getValue, prop_get;
            by rewrite lookup_insert_eq|].
    by destruct (elem_parent node).
Qed.

Lemma fetch_outcome_recorded_witness :
  getStatus ∅ "b.png" = Normal IDLE /\
  store (settle 0 (Fulfilled 150) (snd (loadImage ∅ "b.png" (img 2) (run [] initial_world))))
    = <["b.png" := JBool true]> ∅ /\
  styleHeight (settle 0 (Fulfilled 150)
                 (snd (loadImage ∅ "b.png" (img 2) (run [] initial_world))))
    = <[102 := "150px"]> ∅.
Proof.
  split; [reflexivity|].
  pose proof (fetch_outcome_recorded [] ∅ "b.png" (img 2) (Fulfilled 150) eq_refl) as H.
  cbv zeta in H. destruct H as (H1 & _ & _ & _ & H5).
  split; [exact H1|exact H5].
Defined.

(** X8. A promise settles once: when the image behind a promise has fired
    [onload] or [onerror], a later [onload] or [onerror] for the same promise
    changes nothing, whatever it reports. *)
Theorem settle_once (w : World) (p : nat) (s s' : Settlement) :
  settle p s' (settle p s w) = settle p s w.
Proof.
  destruct (bool_decide (p < length (fetched w))) eqn:Hlt;
    destruct (bool_decide (settled w !! p = None)) eqn:Hnone.
  - assert (settle p s w = resume_all (awaited_of s)
              (filter (fun x => sus_promise x = p) (suspended w))
              (MkWorld (store w) (apis w) (now w) (timers w) (fetched w)
                       (<[p := s]> (settled w))
                       (filter (fun x => sus_promise x ≠ p) (suspended w)) (styleHeight w)))
      as E by (unfold settle; by rewrite Hlt, Hnone).
    rewrite E. unfold settle. rewrite resume_all_fetched, resume_all_settled.
    cbn [fetched settled]. rewrite Hlt, lookup_insert_eq.
    rewrite bool_decide_eq_false_2 by done. reflexivity.
  - assert (settle p s w = w) as E by (unfold settle; by rewrite Hlt, Hnone).
    rewrite E. unfold settle. by rewrite Hlt, Hnone.
  - assert (settle p s w = w) as E by (unfold settle; by rewrite Hlt).
    rewrite E. unfold settle. by rewrite Hlt.
  - assert (settle p s w = w) as E by (unfold settle; by rewrite Hlt).
    rewrite E. unfold settle. by rewrite Hlt.
Qed.

(** ** One pending load per [imgLoaderApi] value *)

Section Preserved.
Variable Inv : World -> Prop.
Hypothesis Inv_dispatch : forall a w, Inv w -> Inv (dispatch a w).
Hypothesis Inv_data : forall w f se su sh,
  Inv w -> Inv (MkWorld (store w) (apis w) (now w) (timers w) f se su sh).

Lemma loadImage_resume_preserved (src : string) (node : Element) (a : Awaited) (w : World) :
  Inv w -> Inv (snd (loadImage_resume src node a w)).
Proof.
  intros Hw. unfold loadImage_resume. destruct (destructure_height a); cbn [snd];
    apply Inv_dispatch; [|done].
  destruct (elem_parent node); [|done]. by apply Inv_data.
Qed.

Lemma await_preserved (v : JsValue) (src : string) (node : Element) (w : World) :
  Inv w -> Inv (snd (await v src node w)).
Proof.
  intros Hw. unfold await.
  assert (forall a, Inv (let '(b, w') := loadImage_resume src node a w in (Resolves b, w')).2)
    as Hres.
  { intros a. pose proof (loadImage_resume_preserved src node a w Hw) as H.
    by destruct (loadImage_resume src node a w). }
  destruct v; try apply Hres.
  destruct (settled w !! p) as [[h|]|]; try apply Hres.
  cbn [snd]. by apply Inv_data.
Qed.

Lemma loadImage_preserved (cache : Cache) (src : string) (node : Element) (w : World) :
  Inv w -> Inv (snd (loadImage cache src node w)).
Proof.
  intros Hw. unfold loadImage.
  destruct (getStatus cache src) as [[| | |]|e]; cbn [snd fetchImg]; try done.
  - apply await_preserved, Inv_dispatch. by apply Inv_data.
  - by apply await_preserved.
Qed.

Lemma resume_all_preserved (a : Awaited) (waiting : list Suspended) (w : World) :
  Inv w -> Inv (resume_all a waiting w).
Proof.
  unfold resume_all. revert w. induction waiting as [|s waiting IH]; intros w Hw; [done|].
  simpl. apply IH. by apply loadImage_resume_preserved.
Qed.

End Preserved.

Lemma debounce_ok_append (w : World) (state : Cache) :
  debounce_ok w ->
  debounce_ok (MkWorld state (apis w ++ [imgLoaderApi (length (apis w)) state])
                       (now w) (timers w) (fetched w) (settled w) (suspended w)
                       (styleHeight w)).
Proof.
  intros [[Hids Hnd Hown] Hidx]. split; [split; cbn [timers apis]; [done|done|]|].
  - eapply Forall_impl; [exact Hown|]. intros t (api & Hl & Ht).
    exists api. split; [by apply lookup_app_l_Some|done].
  - intros k api Hk. cbn [apis] in Hk.
    apply lookup_app_Some in Hk as [Hk|[Hlen Hk]]; [by apply Hidx|].
    destruct (k - length (apis w)) as [|n] eqn:E; [|done].
    injection Hk as <-. split; [reflexivity|]. intros args. cbn. f_equal. lia.
Qed.

Lemma debounce_ok_dispatch (a : Action) (w : World) : debounce_ok w -> debounce_ok (dispatch a w).
Proof.
  intros Hw. destruct a as [s v|s|s|ty]; [| | |done]; by apply debounce_ok_append.
Qed.

Lemma debounce_ok_data (w : World) f se su sh :
  debounce_ok w -> debounce_ok (MkWorld (store w) (apis w) (now w) (timers w) f se su sh).
Proof. intros [[Hids Hnd Hown] Hidx]. split; [by split|exact Hidx]. Qed.

Lemma take_due_split {C : Type} (now : nat) (l rest : list (Timer C)) (t : Timer C) :
  take_due now l = Some (t, rest) ->
  exists l1 l2, l = l1 ++ t :: l2 /\ rest = l1 ++ l2 /\ is_due now t = true.
Proof.
  revert rest. induction l as [|x l IH]; intros rest; [done|]. simpl.
  destruct (is_due now x) eqn:Hx.
  - intros [= -> ->]. by exists [], rest.
  - destruct (take_due now l) as [[t' rest']|]; [|done]. intros [= -> <-].
    destruct (IH rest' eq_refl) as (l1 & l2 & -> & -> & Hd). by exists (x :: l1), l2.
Qed.

Lemma NoDup_map_filter {X Y : Type} (f : X -> Y) (P : X -> Prop)
    `{!forall x, Decision (P x)} (l : list X) :
  NoDup (map f l) -> NoDup (map f (filter P l)).
Proof.
  induction l as [|x l IH]; [done|]. cbn [map]. rewrite NoDup_cons. intros [Hx Hl].
  rewrite filter_cons. destruct (decide (P x)); [|by apply IH].
  cbn [map]. apply NoDup_cons. split; [|by apply IH].
  intros Hin. apply Hx. apply list_elem_of_fmap in Hin as (y & -> & Hy).
  apply list_elem_of_filter in Hy as [_ Hy]. apply list_elem_of_fmap. eauto.
Qed.

Lemma debounce_ok_step (w : World) (ev : Event) : debounce_ok w -> debounce_ok (step w ev).
Proof.
  intros Hw. destruct ev as [k src node|ms| |p s]; simpl.
  - unfold call_loadImage. destruct (apis w !! k) as [api|] eqn:Hk; [|done].
    destruct Hw as [[Hids Hnd Hown] Hidx].
    unfold debounced_call, setTimeout. cbn [fst snd].
    assert (next_timer (clearTimeout (timeoutID (api_loadImage api)) (timers w))
            = next_timer (timers w)) as Hnext by (by destruct (timeoutID _)).
    assert (exists P : Timer RawCall -> Prop, exists _ : forall x, Decision (P x),
              pending (clearTimeout (timeoutID (api_loadImage api)) (timers w))
              = filter P (pending (timers w)) /\
              forall t, P t -> timeoutID (api_loadImage api) <> Some (timer_id t))
      as (P & HP & Hpend & Hrem).
    { destruct (timeoutID (api_loadImage api)) as [i|].
      - exists (fun t => timer_id t ≠ i), _. split; [done|]. intros t Ht [= E]. by apply Ht.
      - exists (fun _ => True), _. split; [|done]. cbn [clearTimeout].
        symmetry. apply filter_all, Forall_forall. done. }
    rewrite Hnext, Hpend.
    split; [split|]; cbn [timers apis next_timer pending].
    + apply Forall_app. split.
      * apply Forall_filter_keep. eapply Forall_impl; [exact Hids|]. intros t Ht. simpl in *. lia.
      * apply Forall_singleton. cbn [timer_id]. lia.
    + rewrite map_app. apply NoDup_app. split; [by apply NoDup_map_filter|]. split.
      * intros i Hi Hi'. cbn [map timer_id] in Hi'. apply list_elem_of_singleton in Hi'. subst i.
        apply list_elem_of_fmap in Hi as (t & Ht & Hin).
        apply list_elem_of_filter in Hin as [_ Hin].
        pose proof (proj1 (Forall_forall _ _) Hids _ Hin) as Hlt. simpl in Hlt. lia.
      * apply NoDup_singleton.
    + apply Forall_app. split.
      * apply Forall_forall. intros t Ht. apply list_elem_of_filter in Ht as [HPt Hin].
        destruct (proj1 (Forall_forall _ _) Hown _ Hin) as (api' & Hl & Hid).
        destruct (decide (rc_api (timer_callback t) = k)) as [E|E].
        -- rewrite E, Hk in Hl. injection Hl as <-. by destruct (Hrem t HPt).
        -- exists api'. split; [|done]. by rewrite list_lookup_insert_ne.
      * apply Forall_singleton. cbn [timer_callback timer_id].
        rewrite (proj2 (Hidx k api Hk)). cbn [rc_api]. eexists. split.
        -- apply list_lookup_insert_eq. by apply lookup_lt_Some in Hk.
        -- reflexivity.
    + intros k' api' Hk'. cbn [apis] in Hk'. destruct (decide (k = k')) as [<-|E].
      * rewrite list_lookup_insert_eq in Hk' by (by apply lookup_lt_Some in Hk).
        injection Hk' as <-. cbn [api_loadImage db_fn db_delay]. by apply Hidx.
      * rewrite list_lookup_insert_ne in Hk' by done. by apply Hidx.
  - destruct Hw as [[Hids Hnd Hown] Hidx]. split; [by split|exact Hidx].
  - unfold fire_timer. destruct (take_due _ _) as [[t rest]|] eqn:Hd; [|done].
    assert (debounce_ok (MkWorld (store w) (apis w) (now w)
                                 (MkTimers (next_timer (timers w)) rest)
                                 (fetched w) (settled w) (suspended w) (styleHeight w))) as Hw1.
    { destruct Hw as [[Hids Hnd Hown] Hidx].
      destruct (take_due_split _ _ _ _ Hd) as (l1 & l2 & El & -> & _).
      rewrite El in Hids, Hnd, Hown.
      apply Forall_app in Hids as [Hi1 Hi2]. apply Forall_cons in Hi2 as [_ Hi2].
      apply Forall_app in Hown as [Ho1 Ho2]. apply Forall_cons in Ho2 as [_ Ho2].
      rewrite map_app in Hnd. cbn [map] in Hnd.
      apply NoDup_app in Hnd as (Hn1 & Hn12 & Hn2). apply NoDup_cons in Hn2 as [_ Hn2].
      split; [split|done]; cbn [timers pending next_timer apis].
      - apply Forall_app. by split.
      - rewrite map_app. apply NoDup_app. split; [done|]. split; [|done].
        intros i Hi Hi'. apply (Hn12 i Hi). by right.
      - apply Forall_app. by split. }
    destruct (apis w !! rc_api (timer_callback t)) as [api|]; [|done].
    apply loadImage_preserved; auto using debounce_ok_dispatch, debounce_ok_data.
  - unfold settle. destruct (_ && _); [|done].
    apply resume_all_preserved; auto using debounce_ok_dispatch, debounce_ok_data.
Qed.

Lemma debounce_ok_run (evs : list Event) : debounce_ok (run evs initial_world).
Proof.
  assert (forall w, debounce_ok w -> debounce_ok (run evs w)) as H.
  { unfold run. induction evs as [|ev evs IH]; intros w Hw; [done|].
    simpl. apply IH. by apply debounce_ok_step. }
  apply H. split; [split; cbn; constructor|].
  intros k api Hk. destruct k as [|k]; [|done]. by injection Hk as <-.
Qed.

Lemma filter_same_key_short {X Y : Type} (f : X -> Y) (P : X -> Prop)
    `{!forall x, Decision (P x)} (l : list X) :
  NoDup (map f l) ->
  (forall x y, x ∈ l -> y ∈ l -> P x -> P y -> f x = f y) ->
  length (filter P l) <= 1.
Proof.
  induction l as [|x l IH]; [simpl; lia|]. cbn [map]. rewrite NoDup_cons. intros [Hx Hl] Hsame.
  rewrite filter_cons. destruct (decide (P x)) as [HP|HP].
  - assert (filter P l = []) as ->; [|simpl; lia].
    apply filter_none, Forall_forall. intros y Hy HPy. apply Hx.
    rewrite (Hsame x y); [by apply list_elem_of_fmap_2|by left|by right|done|done].
  - apply IH; [done|]. intros y z Hy Hz. apply Hsame; by right.
Qed.

(** X10. However the page calls [loadImage], at every moment each
    [imgLoaderApi] value has at most one load waiting in a timer: a call
    through it replaces the timer of its earlier call. *)
Theorem one_pending_load_per_api (evs : list Event) (k : nat) :
  length (filter (fun t => rc_api (timer_callback t) = k)
                 (pending (timers (run evs initial_world)))) <= 1.
Proof.
  destruct (debounce_ok_run evs) as [[Hids Hnd Hown] Hidx].
  apply (filter_same_key_short timer_id); [done|].
  intros x y Hx Hy Ex Ey.
  destruct (proj1 (Forall_forall _ _) Hown _ Hx) as (ax & Hax & Hix).
  destruct (proj1 (Forall_forall _ _) Hown _ Hy) as (ay & Hay & Hiy).
  rewrite Ex in Hax. rewrite Ey in Hay. congruence.
Qed.

(** ** What a call of [loadImage] leaves alone *)

Lemma dispatch_store_frame (a : Action) (w : World) (x : string) :
  action_src a <> Some x -> store (dispatch a w) !! x = store w !! x.
Proof.
  intros Hne. destruct a as [s v|s|s|ty]; unfold dispatch; cbn [store reducer]; [| | |done];
    apply lookup_insert_ne; simpl in Hne; congruence.
Qed.

Lemma loadImage_resume_store_frame (src : string) (node : Element) (a : Awaited) (w : World)
    (x : string) :
  x <> src -> store (snd (loadImage_resume src node a w)) !! x = store w !! x.
Proof.
  intros Hne. unfold loadImage_resume. destruct (destructure_height a); cbn [snd];
    rewrite dispatch_store_frame by (simpl; congruence); [by destruct (elem_parent node)|done].
Qed.

Lemma await_store_frame (v : JsValue) (src : string) (node : Element) (w : World) (x : string) :
  x <> src -> store (snd (await v src node w)) !! x = store w !! x.
Proof.
  intros Hne. unfold await.
  assert (forall a, store (let '(b, w') := loadImage_resume src node a w in (Resolves b, w')).2
                    !! x = store w !! x) as Hres.
  { intros a. pose proof (loadImage_resume_store_frame src node a w x Hne) as H.
    by destruct (loadImage_resume src node a w). }
  destruct v; try apply Hres.
  destruct (settled w !! p) as [[h|]|]; try apply Hres. reflexivity.
Qed.

Lemma loadImage_store_frame (cache : Cache) (src : string) (node : Element) (w : World)
    (x : string) :
  x <> src -> store (snd (loadImage cache src node w)) !! x = store w !! x.
Proof.
  intros Hne. unfold loadImage.
  destruct (getStatus cache src) as [[| | |]|e]; cbn [snd fetchImg]; try done.
  - rewrite await_store_frame by done. by rewrite dispatch_store_frame by (simpl; congruence).
  - by rewrite await_store_frame.
Qed.

(** X11. A call of [loadImage], in any world and against any cache, touches
    the cache entry of no URL but its own: the entry and the status of every
    other URL stay what they were, and the only fetch it can start is one of
    its own URL. *)
Theorem loadImage_touches_only_its_url (cache : Cache) (src : string) (node : Element)
    (w : World) (x : string) :
  x <> src ->
  store (snd (loadImage cache src node w)) !! x = store w !! x /\
  getStatus (store (snd (loadImage cache src node w))) x = getStatus (store w) x /\
  (fetched (snd (loadImage cache src node w)) = fetched w \/
   fetched (snd (loadImage cache src node w)) = fetched w ++ [src]).
Proof.
  intros Hne. pose proof (loadImage_store_frame cache src node w x Hne) as E.
  split; [exact E|]. split; [|apply loadImage_fetched_cases].
  unfold getStatus, getValue, prop_get. by rewrite E.
Qed.

Lemma loadImage_touches_only_its_url_witness :
  "b.png" <> "a.png" /\
  store (snd (loadImage ∅ "a.png" (img 1) initial_world)) !! "b.png"
    = store initial_world !! "b.png" /\
  getStatus (store (snd (loadImage ∅ "a.png" (img 1) initial_world))) "b.png"
    = getStatus (store initial_world) "b.png" /\
  (fetched (snd (loadImage ∅ "a.png" (img 1) initial_world)) = fetched initial_world \/
   fetched (snd (loadImage ∅ "a.png" (img 1) initial_world))
     = fetched initial_world ++ ["a.png"]).
Proof.
  assert ("b.png" <> "a.png") as H by discriminate.
  split; [exact H|].
  exact (loadImage_touches_only_its_url ∅ "a.png" (img 1) initial_world "b.png" H).
Defined.

(** ** One debounce for all URLs *)

(** What two calls through one [imgLoaderApi] value, [d >= 16] ms and the
    timer come to: one run of [loadImage], for the second call. *)
Lemma two_calls_one_load (evs : list Event) (k : nat) (api : Api) (a b : string)
    (na nb : Element) (d : nat) :
  apis (run evs initial_world) !! k = Some api ->
  pending (timers (run evs initial_world)) = [] ->
  16 <= d ->
  exists w0, fetched w0 = fetched (run evs initial_world) /\
             store w0 = store (run evs initial_world) /\
             pending (timers w0) = [] /\
    run [EvCall k a na; EvCall k b nb; EvTick d; EvFire] (run evs initial_world)
      = snd (loadImage (api_cache api) b nb w0).
Proof.
  intros Hk Hp Hd. set (w := run evs initial_world) in *.
  destruct (debounce_ok_run evs) as [_ Hidx]. fold w in Hidx.
  destruct (Hidx k api Hk) as [Hdelay Hfn].
  assert (k < length (apis w)) as Hlen by (by apply lookup_lt_Some in Hk).
  unfold run. cbn [foldl step].
  unfold call_loadImage at 2. rewrite Hk.
  unfold debounced_call, setTimeout. cbn [fst snd].
  assert (clearTimeout (timeoutID (api_loadImage api)) (timers w)
          = MkTimers (next_timer (timers w)) []) as ->.
  { destruct (timers w) as [n l]. cbn [pending] in Hp. subst l.
    by destruct (timeoutID (api_loadImage api)). }
  cbn [next_timer pending app].
  unfold call_loadImage. cbn [apis now timers].
  rewrite list_lookup_insert_eq by done.
  unfold debounced_call, setTimeout. cbn [fst snd api_loadImage api_cache timeoutID db_fn db_delay
    clearTimeout next_timer pending].
  rewrite filter_cons_False by (cbn [timer_id]; tauto). rewrite filter_nil. cbn [app].
  unfold tick, fire_timer. cbn [now timers pending take_due].
  rewrite Hdelay.
  assert (is_due (now w + d) (MkTimer (S (next_timer (timers w))) (now w + debounce_delay)
                                      (db_fn (api_loadImage api) (b, nb))) = true) as ->.
  { unfold is_due, debounce_delay. cbn [timer_due]. apply Nat.leb_le. lia. }
  cbn [timer_callback apis]. rewrite Hfn. cbn [rc_api rc_src rc_imgNode fst snd].
  rewrite list_lookup_insert_eq by (by rewrite length_insert).
  cbn [api_cache]. eexists. split; [|split; [|split; [|reflexivity]]]; reflexivity.
Qed.

(** X12. The debounce of an [imgLoaderApi] value is shared by all URLs.  When
    no other timer is pending and [loadImage] is called through one value for
    one URL and then for another within the 16 ms, the timer runs [loadImage]
    once, for the second URL: no timer is left for the first one, it is not
    fetched, and its cache entry is untouched. *)
Theorem shared_debounce_drops_earlier_url (evs : list Event) (k : nat) (api : Api)
    (a b : string) (na nb : Element) (d : nat) :
  apis (run evs initial_world) !! k = Some api ->
  pending (timers (run evs initial_world)) = [] ->
  16 <= d ->
  a <> b ->
  pending (timers (run [EvCall k a na; EvCall k b nb; EvTick d; EvFire]
                       (run evs initial_world))) = [] /\
  (fetched (run [EvCall k a na; EvCall k b nb; EvTick d; EvFire] (run evs initial_world))
     = fetched (run evs initial_world) \/
   fetched (run [EvCall k a na; EvCall k b nb; EvTick d; EvFire] (run evs initial_world))
     = fetched (run evs initial_world) ++ [b]) /\
  store (run [EvCall k a na; EvCall k b nb; EvTick d; EvFire] (run evs initial_world)) !! a
    = store (run evs initial_world) !! a.
Proof.
  intros Hk Hp Hd Hab.
  destruct (two_calls_one_load evs k api a b na nb d Hk Hp Hd) as (w0 & Hf & Hs & Ht & ->).
  rewrite loadImage_timers, (loadImage_store_frame _ _ _ _ a Hab), Ht, Hs.
  split; [done|]. split; [|done]. rewrite <- Hf. apply loadImage_fetched_cases.
Qed.

Lemma shared_debounce_drops_earlier_url_witness :
  (apis (run [] initial_world) !! 0 = Some (imgLoaderApi 0 ∅) /\
   pending (timers (run [] initial_world)) = [] /\ 16 <= 16 /\ "a.png" <> "b.png") /\
  fetched (run [EvCall 0 "a.png" (img 1); EvCall 0 "b.png" (img 2); EvTick 16; EvFire]
               (run [] initial_world)) = ["b.png"] /\
  store (run [EvCall 0 "a.png" (img 1); EvCall 0 "b.png" (img 2); EvTick 16; EvFire]
             (run [] initial_world)) !! "a.png" = None.
Proof.
  assert (apis (run [] initial_world) !! 0 = Some (imgLoaderApi 0 ∅)) as H1 by reflexivity.
  assert (pending (timers (run [] initial_world)) = []) as H2 by reflexivity.
  assert (16 <= 16) as H3 by lia.
  assert ("a.png" <> "b.png") as H4 by discriminate.
  split; [exact (conj H1 (conj H2 (conj H3 H4)))|].
  split; [vm_compute; reflexivity|].
  exact (proj2 (proj2 (shared_debounce_drops_earlier_url [] 0 (imgLoaderApi 0 ∅)
                         "a.png" "b.png" (img 1) (img 2) 16 H1 H2 H3 H4))).
Defined.

(** ** A timer that is overdue and has not run *)

(** The same when any time [d1] passes between the two calls and no timer
    runs in it. *)
Lemma calls_apart_one_load (evs : list Event) (k : nat) (api : Api) (a b : string)
    (na nb : Element) (d1 d2 : nat) :
  apis (run evs initial_world) !! k = Some api ->
  pending (timers (run evs initial_world)) = [] ->
  16 <= d2 ->
  exists w0, fetched w0 = fetched (run evs initial_world) /\
             store w0 = store (run evs initial_world) /\
             pending (timers w0) = [] /\
    run [EvCall k a na; EvTick d1; EvCall k b nb; EvTick d2; EvFire] (run evs initial_world)
      = snd (loadImage (api_cache api) b nb w0).
Proof.
  intros Hk Hp Hd. set (w := run evs initial_world) in *.
  destruct (debounce_ok_run evs) as [_ Hidx]. fold w in Hidx.
  destruct (Hidx k api Hk) as [Hdelay Hfn].
  assert (k < length (apis w)) as Hlen by (by apply lookup_lt_Some in Hk).
  unfold run. cbn [foldl step].
  unfold call_loadImage at 2. rewrite Hk.
  unfold debounced_call, setTimeout. cbn [fst snd].
  assert (clearTimeout (timeoutID (api_loadImage api)) (timers w)
          = MkTimers (next_timer (timers w)) []) as ->.
  { destruct (timers w) as [n l]. cbn [pending] in Hp. subst l.
    by destruct (timeoutID (api_loadImage api)). }
  cbn [next_timer pending app].
  unfold tick at 2. unfold call_loadImage. cbn [apis now timers].
  rewrite list_lookup_insert_eq by done.
  unfold debounced_call, setTimeout. cbn [fst snd api_loadImage api_cache timeoutID db_fn db_delay
    clearTimeout next_timer pending].
  rewrite filter_cons_False by (cbn [timer_id]; tauto). rewrite filter_nil. cbn [app].
  unfold tick, fire_timer. cbn [now timers pending take_due].
  rewrite Hdelay.
  assert (is_due (now w + d1 + d2)
                 (MkTimer (S (next_timer (timers w))) (now w + d1 + debounce_delay)
                          (db_fn (api_loadImage api) (b, nb))) = true) as ->.
  { unfold is_due, debounce_delay. cbn [timer_due]. apply Nat.leb_le. lia. }
  cbn [timer_callback apis]. rewrite Hfn. cbn [rc_api rc_src rc_imgNode fst snd].
  rewrite list_lookup_insert_eq by (by rewrite length_insert).
  cbn [api_cache]. eexists. split; [|split; [|split; [|reflexivity]]]; reflexivity.
Qed.

(** X9. A call through an [imgLoaderApi] value cancels the timer of the earlier
    call through that value however long ago that call was made, as long as
    the timer has not run: also a timer that has been due for a while is
    cleared.  After [loadImage] for one URL, any wait [d1] in which no timer
    runs, [loadImage] for another URL, 16 ms and the timer, no timer is left,
    the first URL is not fetched and its cache entry is untouched. *)
Theorem overdue_timer_is_cancelled (evs : list Event) (k : nat) (api : Api)
    (a b : string) (na nb : Element) (d1 d2 : nat) :
  apis (run evs initial_world) !! k = Some api ->
  pending (timers (run evs initial_world)) = [] ->
  16 <= d2 ->
  a <> b ->
  pending (timers (run [EvCall k a na; EvTick d1; EvCall k b nb; EvTick d2; EvFire]
                       (run evs initial_world))) = [] /\
  (fetched (run [EvCall k a na; EvTick d1; EvCall k b nb; EvTick d2; EvFire]
                (run evs initial_world))
     = fetched (run evs initial_world) \/
   fetched (run [EvCall k a na; EvTick d1; EvCall k b nb; EvTick d2; EvFire]
                (run evs initial_world))
     = fetched (run evs initial_world) ++ [b]) /\
  store (run [EvCall k a na; EvTick d1; EvCall k b nb; EvTick d2; EvFire]
             (run evs initial_world)) !! a
    = store (run evs initial_world) !! a.
Proof.
  intros Hk Hp Hd Hab.
  destruct (calls_apart_one_load evs k api a b na nb d1 d2 Hk Hp Hd)
    as (w0 & Hf & Hs & Ht & ->).
  rewrite loadImage_timers, (loadImage_store_frame _ _ _ _ a Hab), Ht, Hs.
  split; [done|]. split; [|done]. rewrite <- Hf. apply loadImage_fetched_cases.
Qed.

Lemma overdue_timer_is_cancelled_witness :
  (apis (run [] initial_world) !! 0 = Some (imgLoaderApi 0 ∅) /\
   pending (timers (run [] initial_world)) = [] /\ 16 <= 16 /\ "a.png" <> "b.png") /\
  map timer_due (pending (timers (run [EvCall 0 "a.png" (img 1); EvTick 40]
                                      (run [] initial_world)))) = [16] /\
  fetched (run [EvCall 0 "a.png" (img 1); EvTick 40; EvCall 0 "b.png" (img 2);
                EvTick 16; EvFire] (run [] initial_world)) = ["b.png"] /\
  store (run [EvCall 0 "a.png" (img 1); EvTick 40; EvCall 0 "b.png" (img 2);
              EvTick 16; EvFire] (run [] initial_world)) !! "a.png" = None.
Proof.
  assert (apis (run [] initial_world) !! 0 = Some (imgLoaderApi 0 ∅)) as H1 by reflexivity.
  assert (pending (timers (run [] initial_world)) = []) as H2 by reflexivity.
  assert (16 <= 16) as H3 by lia.
  assert ("a.png" <> "b.png") as H4 by discriminate.
  split; [exact (conj H1 (conj H2 (conj H3 H4)))|].
  split; [vm_compute; reflexivity|].
  split; [vm_compute; reflexivity|].
  exact (proj2 (proj2 (overdue_timer_is_cancelled [] 0 (imgLoaderApi 0 ∅)
                         "a.png" "b.png" (img 1) (img 2) 40 16 H1 H2 H3 H4))).
Defined.

(** ** When the effect acts *)

(** X13. The effect of [useImgLoader] does something only for an [IDLE] URL
    whose node is an image; and when it calls [loadImage], it does so for the
    URL and the node of the hook, and for a lazy image only where
    [IntersectionObserver] is not supported. *)
Theorem effect_acts_only_when_idle (pf : Platform) (status : Status) (src : string)
    (config : ImgLoaderConfig) (act : EffectAction) :
  act ∈ actions (useImgLoader_effect pf status src config) ->
  status = IDLE /\
  (exists node, imgNode config = Some node /\ elem_is_img node = true /\
     forall s n, act = CallLoadImage s n ->
       s = src /\ n = node /\
       (default false (lazy config) = true -> supportsIntersectionObserver pf = false)).
Proof.
  unfold useImgLoader_effect, attach_observer.
  destruct (imgNode config) as [node|]; [|by intros ?%elem_of_nil].
  case_bool_decide as Hst; [|by intros ?%elem_of_nil].
  destruct (elem_is_img node) eqn:Himg; [|by intros ?%elem_of_nil]. cbn [andb].
  intros Hact. split; [done|]. exists node. split; [done|]. split; [done|].
  intros s n ->.
  destruct (default false (lazy config)) eqn:Hlazy.
  - destruct (supportsIntersectionObserver pf) eqn:Hsup; cbn [negb] in Hact.
    + exfalso. destruct (has_window pf && has_IntersectionObserver pf); cbn [actions] in Hact.
      * apply elem_of_cons in Hact as [?|Hact]; [done|].
        apply elem_of_cons in Hact as [?|Hact]; [done|]. by apply elem_of_nil in Hact.
      * by apply elem_of_nil in Hact.
    + assert (CallLoadImage s n ∈
                (if DEV pf then [ConsoleError IntersectionObserver_warning] else [])
                ++ [CallLoadImage src node] ++ [NewObserver; Observe node]) as Hin.
      { destruct (has_window pf && has_IntersectionObserver pf); cbn [actions] in Hact.
        - by rewrite <- app_assoc in Hact.
        - rewrite app_assoc. apply elem_of_app. by left. }
      apply elem_of_app in Hin as [Hin|Hin].
      * destruct (DEV pf); [|by apply elem_of_nil in Hin].
        by apply list_elem_of_singleton in Hin.
      * apply elem_of_cons in Hin as [[= -> ->]|Hin]; [done|].
        apply elem_of_cons in Hin as [?|Hin]; [done|].
        apply elem_of_cons in Hin as [?|Hin]; [done|]. by apply elem_of_nil in Hin.
  - cbn [actions] in Hact. apply list_elem_of_singleton in Hact. by injection Hact as -> ->.
Qed.

Lemma effect_acts_only_when_idle_witness :
  CallLoadImage "a.png" (img 1)
    ∈ actions (useImgLoader_effect browser IDLE "a.png" (eager (img 1))) /\
  IDLE = IDLE /\
  (exists node, imgNode (eager (img 1)) = Some node /\ elem_is_img node = true /\
     forall s n, CallLoadImage "a.png" (img 1) = CallLoadImage s n ->
       s = "a.png" /\ n = node /\
       (default false (lazy (eager (img 1))) = true ->
        supportsIntersectionObserver browser = false)).
Proof.
  assert (CallLoadImage "a.png" (img 1)
            ∈ actions (useImgLoader_effect browser IDLE "a.png" (eager (img 1)))) as H
    by (apply list_elem_of_singleton; reflexivity).
  split; [exact H|].
  exact (effect_acts_only_when_idle browser IDLE "a.png" (eager (img 1)) _ H).
Defined.

(** ** The observer of a lazy image *)

(** X14. A lazy [IDLE] image where [IntersectionObserver] is supported: the
    effect calls no [loadImage], it creates an observer, observes the node
    and leaves it to the cleanup; and the first delivery for the node then
    calls [loadImage] for the URL of the hook exactly when its ratio is above
    zero. *)
Theorem lazy_image_waits_for_intersection (pf : Platform) (src : string) (id : nat)
    (parent : option nat) (ph : option string) (r : Q) :
  supportsIntersectionObserver pf = true ->
  useImgLoader_effect pf IDLE src (MkConfig (Some true) (Some (MkElement id true parent)) ph)
    = MkEffectRun [NewObserver; Observe (MkElement id true parent)]
                  (Normal (Some (MkElement id true parent))) /\
  watch_loads (io_run src [IoDetect (MkEntry (MkElement id true parent) r); IoNotify]
                      (effect_watch (MkElement id true parent)))
    = (if ratio_positive r then [(src, MkElement id true parent)] else []).
Proof.
  intros Hsup. split.
  - unfold useImgLoader_effect, attach_observer. cbn. rewrite Hsup. cbn.
    unfold supportsIntersectionObserver in Hsup.
    destruct (has_window pf), (has_IntersectionObserver pf); try discriminate. reflexivity.
  - unfold io_run, effect_watch, observe, observed. cbn [foldl io_targets map].
    rewrite bool_decide_eq_false_2 by (by intros ?%elem_of_nil).
    cbn [io_step watch_observer target io_targets io_queue app]. unfold observed.
    cbn [io_targets map elem_id].
    rewrite bool_decide_eq_true_2 by (by apply list_elem_of_singleton).
    cbn [io_step watch_observer io_queue io_targets app handleIntersect intersectionRatio
         target elem_is_img watch_loads].
    rewrite andb_true_r. by destruct (ratio_positive r).
Qed.

Lemma lazy_image_waits_for_intersection_witness :
  supportsIntersectionObserver browser = true /\
  useImgLoader_effect browser IDLE "a.png" (MkConfig (Some true) (Some (MkElement 1 true None)) None)
    = MkEffectRun [NewObserver; Observe (MkElement 1 true None)]
                  (Normal (Some (MkElement 1 true None))) /\
  watch_loads (io_run "a.png" [IoDetect (MkEntry (MkElement 1 true None) (1 # 10)); IoNotify]
                      (effect_watch (MkElement 1 true None)))
    = [("a.png", MkElement 1 true None)].
Proof.
  split; [reflexivity|].
  exact (lazy_image_waits_for_intersection browser "a.png" 1 None None (1 # 10) eq_refl).
Defined.

(** X15. [handleIntersect] looks at the first entry only.  When that entry has
    a ratio of zero, or its target is no image, a delivery loads nothing and
    keeps every target observed, whatever the entries behind it say: a later
    entry with a ratio above zero is dropped with the rest of the queue. *)
Theorem first_entry_decides (src : string) (st : Watch) (e : Entry) (rest : list Entry) :
  io_queue (watch_observer st) = e :: rest ->
  ~ (0 < intersectionRatio e)%Q \/ elem_is_img (target e) = false ->
  handleIntersect src (e :: rest) (watch_observer st) = Normal ([], watch_observer st) /\
  io_step src st IoNotify
    = MkWatch (MkObserver (io_targets (watch_observer st)) []) (watch_loads st).
Proof.
  intros Hq Hno.
  assert (ratio_positive (intersectionRatio e) && elem_is_img (target e) = false) as Hb.
  { destruct Hno as [Hr| ->]; [|apply andb_false_r].
    destruct (ratio_positive (intersectionRatio e)) eqn:E; [|done].
    by apply ratio_positive_spec in E. }
  split.
  - unfold handleIntersect. by rewrite Hb.
  - unfold io_step. rewrite Hq. unfold handleIntersect. rewrite Hb.
    by rewrite app_nil_r.
Qed.

Lemma first_entry_decides_witness :
  (io_queue (MkObserver [img 1] [MkEntry (img 1) 0; MkEntry (img 1) 1])
     = MkEntry (img 1) 0 :: [MkEntry (img 1) 1] /\
   (~ (0 < intersectionRatio (MkEntry (img 1) 0))%Q \/
    elem_is_img (target (MkEntry (img 1) 0)) = false)) /\
  io_step "a.png" (MkWatch (MkObserver [img 1] [MkEntry (img 1) 0; MkEntry (img 1) 1]) [])
          IoNotify
    = MkWatch (MkObserver [img 1] []) [].
Proof.
  assert (~ (0 < intersectionRatio (MkEntry (img 1) 0))%Q \/
          elem_is_img (target (MkEntry (img 1) 0)) = false) as H
    by (left; intros Hlt; discriminate Hlt).
  split; [exact (conj eq_refl H)|].
  exact (proj2 (first_entry_decides "a.png"
                  (MkWatch (MkObserver [img 1] [MkEntry (img 1) 0; MkEntry (img 1) 1]) [])
                  (MkEntry (img 1) 0) [MkEntry (img 1) 1] eq_refl H)).
Defined.

(** X16. The cleanup of the effect ends the watch: once it has unobserved the
    node, and nothing was queued before, no later entry, delivery or cleanup
    makes the callback call [loadImage]. *)
Theorem cleanup_ends_watch (src : string) (node : Element) (evs : list IoEvent) :
  watch_loads (io_run src evs (io_step src (effect_watch node) (IoCleanup node))) = [].
Proof.
  assert (io_step src (effect_watch node) (IoCleanup node) = MkWatch (MkObserver [] []) [])
    as ->.
  { unfold effect_watch, observe, observed. cbn [io_targets map].
    rewrite bool_decide_eq_false_2 by (by intros ?%elem_of_nil).
    unfold io_step, unobserve. cbn [watch_observer io_targets io_queue watch_loads app].
    by rewrite filter_cons_False, filter_nil by tauto. }
  assert (io_run src evs (MkWatch (MkObserver [] []) []) = MkWatch (MkObserver [] []) [])
    as ->; [|done].
  unfold io_run. induction evs as [|ev evs IH]; [done|]. cbn [foldl].
  assert (io_step src (MkWatch (MkObserver [] []) []) ev = MkWatch (MkObserver [] []) [])
    as ->; [|exact IH].
  destruct ev as [e| |n]; cbn; done.
Qed.

(** ** [composeStyles] and the styles of [SimpleImg] *)

(** Decides a closed statement about style maps by evaluating its decision
    procedure, so that no large map has to be compared by unification. *)
Ltac by_evaluation := refine (bool_decide_unpack _ _); vm_compute; exact I.

Lemma composeStyles_from_app (l1 l2 : list StyleArg) (c : Style) :
  composeStyles_from c (l1 ++ l2) = (c' ← composeStyles_from c l1; composeStyles_from c' l2).
Proof.
  revert c. induction l1 as [|[style|b|] l1 IH]; intros c; cbn [app composeStyles_from]; auto.
  destruct (copy_style style c) as [c'|e]; cbn [mbind Completion_bind]; [apply IH|done].
Qed.

Lemma copy_style_ordinary (style c : Style) :
  ordinary_style style -> copy_style style c = Normal (style ∪ c).
Proof.
  intros [Hh Hp]. unfold copy_style. rewrite Hh.
  rewrite bool_decide_eq_false_2 by (by intros [? ?]).
  by rewrite delete_id.
Qed.

(** X17. In [composeStyles] a later style wins: after any arguments that
    compose to [base], one more ordinary style object gives every property
    of that object its value there and leaves the other properties as in
    [base]. *)
Theorem composeStyles_later_wins (args : list StyleArg) (base style : Style) (key : string) :
  ordinary_style style ->
  composeStyles args = Normal base ->
  exists m, composeStyles (args ++ [StyleObject style]) = Normal m /\
            m !! key = match style !! key with
                       | Some v => Some v
                       | None => base !! key
                       end.
Proof.
  intros Hord Hbase. unfold composeStyles in *.
  rewrite composeStyles_from_app, Hbase. cbn [mbind Completion_bind composeStyles_from].
  rewrite (copy_style_ordinary _ _ Hord). cbn [mbind Completion_bind].
  eexists. split; [reflexivity|].
  rewrite lookup_union. destruct (style !! key), (base !! key); reflexivity.
Qed.

Lemma composeStyles_later_wins_witness :
  (ordinary_style {["opacity" := CssNumber 1]} /\
   composeStyles [StyleObject styles_wrapper] = Normal styles_wrapper) /\
  exists m, composeStyles ([StyleObject styles_wrapper] ++ [StyleObject {["opacity" := CssNumber 1]}])
              = Normal m /\
            m !! "opacity" = match ({["opacity" := CssNumber 1]} : Style) !! "opacity" with
                             | Some v => Some v
                             | None => styles_wrapper !! "opacity"
                             end.
Proof.
  assert (ordinary_style {["opacity" := CssNumber 1]}) as H1
    by (split; by_evaluation).
  assert (composeStyles [StyleObject styles_wrapper] = Normal styles_wrapper) as H2
    by by_evaluation.
  split; [exact (conj H1 H2)|].
  exact (composeStyles_later_wins [StyleObject styles_wrapper] styles_wrapper
           {["opacity" := CssNumber 1]} "opacity" H1 H2).
Defined.

(** X18. [composeStyles] skips every argument that is a boolean, [undefined]
    or [null], wherever it stands: the result is that of the style objects
    alone, so [cond && style] adds nothing when [cond] is false. *)
Theorem composeStyles_skips_non_objects (args : list StyleArg) :
  composeStyles args = composeStyles (filter is_style_object args).
Proof.
  unfold composeStyles. generalize (∅ : Style) as c.
  induction args as [|[style|b|] args IH]; intros c; [done| | |].
  - rewrite filter_cons_True by exact I. cbn [composeStyles_from].
    destruct (copy_style style c) as [c'|e]; cbn [mbind Completion_bind]; [apply IH|done].
  - rewrite filter_cons_False by (by intros []). cbn [composeStyles_from]. apply IH.
  - rewrite filter_cons_False by (by intros []). cbn [composeStyles_from]. apply IH.
Qed.

(** X19. What [SimpleImg] shows.  With a URL whose status is not [ERROR], the
    wrapper gets opacity 1 exactly when the URL is [LOADED] and differs from
    the placeholder, and opacity 0 otherwise; every other property of the
    wrapper is that of [styles.wrapper].  A URL equal to its own placeholder
    is therefore never revealed. *)
Theorem SimpleImg_reveals_when_loaded (api : Api) (node : option Element) (src : string)
    (importance ph : option string) (width height : JsValue) (status : Status)
    (key : string) :
  getStatus (api_cache api) src = Normal status ->
  status <> ERROR ->
  exists r m,
    SimpleImg (Some api) node (MkProps (Some src) importance ph width height) = Normal r /\
    wrapper_style r = Normal m /\
    shouldShow r = bool_decide (status = LOADED)
                   && negb (String.eqb src (default DEFAULT_PLACEHOLDER ph)) /\
    m !! "opacity" = Some (CssNumber (if shouldShow r then 1 else 0)) /\
    (key <> "opacity" -> m !! key = styles_wrapper !! key).
Proof.
  intros Hst Herr.
  assert (forall b, exists m, composeStyles [StyleObject styles_wrapper; and_style b styles_reveal]
                       = Normal m /\
                     m !! "opacity" = Some (CssNumber (if b then 1 else 0)) /\
                     (key <> "opacity" -> m !! key = styles_wrapper !! key)) as Hwrap.
  { intros [|].
    - exists (<["opacity" := CssNumber 1]> styles_wrapper).
      split; [by_evaluation|]. split; [apply lookup_insert_eq|].
      intros Hk. by rewrite lookup_insert_ne.
    - exists styles_wrapper. split; [by_evaluation|].
      split; [by_evaluation|done]. }
  set (ph' := default DEFAULT_PLACEHOLDER ph).
  set (imgSrc := if bool_decide (status = LOADED) then src else ph').
  destruct (Hwrap (negb (String.eqb imgSrc ph'))) as (m & Hm & Hop & Hkeys).
  exists (MkRendered imgSrc (negb (String.eqb imgSrc ph'))
                     (negb (ToBoolean width) && negb (ToBoolean height))), m.
  split; [|split; [exact Hm|split; [|by split]]].
  - unfold SimpleImg, useImgLoader.
    cbn [prop_src prop_placeholder prop_width prop_height placeholder default from_option id
         useImgLoaderContext mbind Completion_bind].
    rewrite Hst. cbn [mbind Completion_bind]. fold ph'.
    subst imgSrc. by destruct status.
  - cbn [shouldShow]. subst imgSrc.
    destruct status; try done; cbn [andb]; by rewrite ?String.eqb_refl.
Qed.

Lemma SimpleImg_reveals_when_loaded_witness :
  (getStatus (api_cache (imgLoaderApi 0 {["b.png" := JBool true]})) "b.png" = Normal LOADED /\
   LOADED <> ERROR) /\
  exists r m,
    SimpleImg (Some (imgLoaderApi 0 {["b.png" := JBool true]})) None
              (MkProps (Some "b.png") None None JUndefined JUndefined) = Normal r /\
    wrapper_style r = Normal m /\
    shouldShow r = bool_decide (LOADED = LOADED)
                   && negb (String.eqb "b.png" (default DEFAULT_PLACEHOLDER None)) /\
    m !! "opacity" = Some (CssNumber (if shouldShow r then 1 else 0)) /\
    ("display" <> "opacity" -> m !! "display" = styles_wrapper !! "display").
Proof.
  assert (getStatus (api_cache (imgLoaderApi 0 {["b.png" := JBool true]})) "b.png"
            = Normal LOADED) as H1 by reflexivity.
  assert (LOADED <> ERROR) as H2 by discriminate.
  split; [exact (conj H1 H2)|].
  exact (SimpleImg_reveals_when_loaded (imgLoaderApi 0 {["b.png" := JBool true]}) None "b.png"
           None None JUndefined JUndefined LOADED "display" H1 H2).
Defined.

(** X20. The style of the [img] that [SimpleImg] renders.  [SimpleImg]
    stretches exactly when neither the [width] nor the [height] prop is
    truthy; then the [width] of the composed style is [100%], also over a
    [width] given in the [style] prop.  Every other property is the one of
    the [style] prop, and without stretching so is [width]. *)
Theorem img_style_stretch (api : Api) (node : option Element) (src : string)
    (importance ph : option string) (width height : JsValue) (status : Status)
    (style : option Style) (key : string) :
  getStatus (api_cache api) src = Normal status ->
  status <> ERROR ->
  ordinary_style (default ∅ style) ->
  exists r m,
    SimpleImg (Some api) node (MkProps (Some src) importance ph width height) = Normal r /\
    shouldStretch r = negb (ToBoolean width) && negb (ToBoolean height) /\
    img_style style r = Normal m /\
    m !! key = if negb (ToBoolean width) && negb (ToBoolean height)
                  && bool_decide (key = "width")
               then Some (CssText "100%")
               else default ∅ style !! key.
Proof.
  intros Hst Herr Hord.
  set (ph' := default DEFAULT_PLACEHOLDER ph).
  set (imgSrc := if bool_decide (status = LOADED) then src else ph').
  set (stretch := negb (ToBoolean width) && negb (ToBoolean height)).
  assert (SimpleImg (Some api) node (MkProps (Some src) importance ph width height)
          = Normal (MkRendered imgSrc (negb (String.eqb imgSrc ph')) stretch)) as Hr.
  { unfold SimpleImg, useImgLoader.
    cbn [prop_src prop_placeholder prop_width prop_height placeholder default from_option id
         useImgLoaderContext mbind Completion_bind].
    rewrite Hst. cbn [mbind Completion_bind]. fold ph'.
    subst imgSrc. by destruct status. }
  exists (MkRendered imgSrc (negb (String.eqb imgSrc ph')) stretch).
  assert (exists m,
            img_style style (MkRendered imgSrc (negb (String.eqb imgSrc ph')) stretch)
              = Normal m /\
            m !! key = if stretch && bool_decide (key = "width")
                       then Some (CssText "100%")
                       else default ∅ style !! key) as (m & Hm & Hkey).
  { unfold img_style, composeStyles. cbn [composeStyles_from shouldStretch].
    rewrite (copy_style_ordinary _ _ Hord). cbn [mbind Completion_bind].
    rewrite (right_id_L ∅ (∪)).
    destruct stretch; cbn [and_style composeStyles_from andb].
    - assert (ordinary_style styles_stretch) as Hs by (split; by_evaluation).
      rewrite (copy_style_ordinary _ _ Hs). cbn [mbind Completion_bind].
      eexists. split; [reflexivity|]. rewrite lookup_union. unfold styles_stretch.
      case_bool_decide as Hk.
      + subst key. rewrite lookup_singleton_eq. by destruct (default ∅ style !! "width").
      + rewrite lookup_singleton_ne by done. by destruct (default ∅ style !! key).
    - eexists. split; reflexivity. }
  exists m. split; [exact Hr|]. split; [reflexivity|]. split; [exact Hm|exact Hkey].
Qed.

Lemma img_style_stretch_witness :
  (getStatus (api_cache (imgLoaderApi 0 {["b.png" := JBool true]})) "b.png" = Normal LOADED /\
   LOADED <> ERROR /\
   ordinary_style (default ∅ (Some ({["width" := CssText "40px"]} : Style)))) /\
  exists r m,
    SimpleImg (Some (imgLoaderApi 0 {["b.png" := JBool true]})) None
              (MkProps (Some "b.png") None None JUndefined (JNumber 0)) = Normal r /\
    shouldStretch r = negb (ToBoolean JUndefined) && negb (ToBoolean (JNumber 0)) /\
    img_style (Some {["width" := CssText "40px"]}) r = Normal m /\
    m !! "width" = if negb (ToBoolean JUndefined) && negb (ToBoolean (JNumber 0))
                      && bool_decide ("width" = "width")
                   then Some (CssText "100%")
                   else default ∅ (Some ({["width" := CssText "40px"]} : Style)) !! "width".
Proof.
  assert (getStatus (api_cache (imgLoaderApi 0 {["b.png" := JBool true]})) "b.png"
            = Normal LOADED) as H1 by reflexivity.
  assert (LOADED <> ERROR) as H2 by discriminate.
  assert (ordinary_style (default ∅ (Some ({["width" := CssText "40px"]} : Style)))) as H3
    by (split; by_evaluation).
  split; [exact (conj H1 (conj H2 H3))|].
  exact (img_style_stretch (imgLoaderApi 0 {["b.png" := JBool true]}) None "b.png"
           None None JUndefined (JNumber 0) LOADED (Some {["width" := CssText "40px"]})
           "width" H1 H2 H3).
Defined.

(** ** From a call of the exposed [loadImage] to the fetch *)

Lemma apis_nonempty (evs : list Event) : 0 < length (apis (run evs initial_world)).
Proof.
  assert (forall w, 0 < length (apis w) -> 0 < length (apis (run evs w))) as H.
  { unfold run. induction evs as [|ev evs IH]; intros w Hw; [done|].
    cbn [foldl]. apply IH.
    assert (forall a w0, 0 < length (apis w0) -> 0 < length (apis (dispatch a w0))) as Hd.
    { intros a w0 Hw0. destruct a; unfold dispatch; cbn [apis]; rewrite ?length_app; lia. }
    destruct ev as [k src node|ms| |p s]; simpl.
    - unfold call_loadImage. destruct (apis w !! k); [|done].
      unfold debounced_call, setTimeout. cbn [apis]. by rewrite length_insert.
    - done.
    - unfold fire_timer. destruct (take_due _ _) as [[t rest]|]; [|done].
      destruct (apis w !! rc_api (timer_callback t)); [|done].
      by apply (loadImage_preserved (fun w0 => 0 < length (apis w0))).
    - unfold settle. destruct (_ && _); [|done].
      by apply (resume_all_preserved (fun w0 => 0 < length (apis w0))). }
  apply H. simpl. lia.
Qed.

Lemma current_api_exists (evs : list Event) :
  exists api, apis (run evs initial_world) !! current_api (run evs initial_world) = Some api /\
              current_cache (run evs initial_world) = api_cache api.
Proof.
  pose proof (apis_nonempty evs) as Hlen. unfold current_cache, current_api.
  destruct (apis (run evs initial_world) !! pred (length (apis (run evs initial_world))))
    as [api|] eqn:E; [eauto|].
  apply lookup_ge_None in E. lia.
Qed.

(** One call through an [imgLoaderApi] value, [d >= delay] ms and the timer
    come to one run of its [loadImage], in a world that differs from the one
    before the call in the time, the timer ids and the [timeoutID] only. *)
Lemma one_call_one_load (evs : list Event) (k : nat) (api : Api) (src : string)
    (node : Element) (d : nat) :
  apis (run evs initial_world) !! k = Some api ->
  pending (timers (run evs initial_world)) = [] ->
  16 <= d ->
  exists w0, fetched w0 = fetched (run evs initial_world) /\
             store w0 = store (run evs initial_world) /\
             settled w0 = settled (run evs initial_world) /\
             length (apis w0) = length (apis (run evs initial_world)) /\
             pending (timers w0) = [] /\
    run [EvCall k src node; EvTick d; EvFire] (run evs initial_world)
      = snd (loadImage (api_cache api) src node w0).
Proof.
  intros Hk Hp Hd. set (w := run evs initial_world) in *.
  destruct (debounce_ok_run evs) as [_ Hidx]. fold w in Hidx.
  destruct (Hidx k api Hk) as [Hdelay Hfn].
  assert (k < length (apis w)) as Hlen by (by apply lookup_lt_Some in Hk).
  unfold run. cbn [foldl step].
  unfold call_loadImage. rewrite Hk.
  unfold debounced_call, setTimeout. cbn [fst snd].
  assert (clearTimeout (timeoutID (api_loadImage api)) (timers w)
          = MkTimers (next_timer (timers w)) []) as ->.
  { destruct (timers w) as [n l]. cbn [pending] in Hp. subst l.
    by destruct (timeoutID (api_loadImage api)). }
  cbn [next_timer pending app].
  unfold tick, fire_timer. cbn [now timers pending take_due].
  rewrite Hdelay.
  assert (is_due (now w + d) (MkTimer (next_timer (timers w)) (now w + debounce_delay)
                                      (db_fn (api_loadImage api) (src, node))) = true) as ->.
  { unfold is_due, debounce_delay. cbn [timer_due]. apply Nat.leb_le. lia. }
  cbn [timer_callback apis]. rewrite Hfn. cbn [rc_api rc_src rc_imgNode fst snd].
  rewrite list_lookup_insert_eq by done.
  cbn [api_cache]. eexists.
  split; [|split; [|split; [|split; [|split; [|reflexivity]]]]]; try reflexivity.
  cbn [apis]. by rewrite length_insert.
Qed.

(** X21. The way of one image through the exposed [loadImage].  In a reachable
    world with no timer pending, a call of the [loadImage] of the context for
    a URL that its cache shows as [IDLE] is followed, once 16 ms have passed
    and the timer has run, by exactly one fetch of that URL; its promise is in
    the cache, the provider shows the URL as [PENDING], and no timer is
    left. *)
Theorem exposed_loadImage_fetches_after_delay (evs : list Event) (src : string)
    (node : Element) (d : nat) :
  pending (timers (run evs initial_world)) = [] ->
  getStatus (current_cache (run evs initial_world)) src = Normal IDLE ->
  16 <= d ->
  fetched (run [EvCall (current_api (run evs initial_world)) src node; EvTick d; EvFire]
               (run evs initial_world))
    = fetched (run evs initial_world) ++ [src] /\
  store (run [EvCall (current_api (run evs initial_world)) src node; EvTick d; EvFire]
             (run evs initial_world))
    = <[src := JPromise (length (fetched (run evs initial_world)))]>
        (store (run evs initial_world)) /\
  getStatus (current_cache
               (run [EvCall (current_api (run evs initial_world)) src node; EvTick d; EvFire]
                    (run evs initial_world))) src = Normal PENDING /\
  pending (timers (run [EvCall (current_api (run evs initial_world)) src node; EvTick d; EvFire]
                       (run evs initial_world))) = [].
Proof.
  intros Hp Hst Hd.
  destruct (current_api_exists evs) as (api & Hk & Hcache). rewrite Hcache in Hst.
  destruct (one_call_one_load evs _ api src node d Hk Hp Hd)
    as (w0 & Hf & Hs & Hse & Hlen & Ht & ->).
  assert (settled w0 !! length (fetched w0) = None) as Hnone
    by (rewrite Hse, Hf; apply next_promise_unsettled).
  assert (loadImage (api_cache api) src node w0
          = (Awaits (length (fetched w0)), started src node w0)) as ->.
  { unfold loadImage. rewrite Hst. cbn [fetchImg]. unfold await.
    rewrite dispatch_settled. cbn [settled]. by rewrite Hnone. }
  cbn [snd]. unfold started, park, dispatch. cbn [fetched store timers fetchImg snd reducer].
  rewrite Hf, Hs, Ht. split; [done|]. split; [done|]. split; [|done].
  erewrite current_cache_last by reflexivity. cbn [api_cache imgLoaderApi].
  rewrite getStatus_cases. unfold getValue, prop_get. by rewrite lookup_insert_eq.
Qed.

Lemma exposed_loadImage_fetches_after_delay_witness :
  (pending (timers (run [] initial_world)) = [] /\
   getStatus (current_cache (run [] initial_world)) "a.png" = Normal IDLE /\ 16 <= 20) /\
  fetched (run [EvCall (current_api (run [] initial_world)) "a.png" (img 1); EvTick 20; EvFire]
               (run [] initial_world)) = [] ++ ["a.png"].
Proof.
  assert (pending (timers (run [] initial_world)) = []) as H1 by reflexivity.
  assert (getStatus (current_cache (run [] initial_world)) "a.png" = Normal IDLE) as H2
    by reflexivity.
  assert (16 <= 20) as H3 by lia.
  split; [exact (conj H1 (conj H2 H3))|].
  exact (proj1 (exposed_loadImage_fetches_after_delay [] "a.png" (img 1) 20 H1 H2 H3)).
Defined.

(** ** Every waiting call hears of the outcome *)

Lemma dispatch_styleHeight (a : Action) (w : World) :
  styleHeight (dispatch a w) = styleHeight w.
Proof. by destruct a. Qed.

Lemma loadImage_resume_suspended (src : string) (node : Element) (a : Awaited) (w : World) :
  suspended (snd (loadImage_resume src node a w)) = suspended w.
Proof.
  unfold loadImage_resume. destruct (destructure_height a); cbn [snd];
    rewrite dispatch_suspended; [by destruct (elem_parent node)|done].
Qed.

Lemma resume_all_suspended (a : Awaited) (waiting : list Suspended) (w : World) :
  suspended (resume_all a waiting w) = suspended w.
Proof.
  unfold resume_all. revert w. induction waiting as [|s waiting IH]; intros w; [done|].
  simpl. by rewrite IH, loadImage_resume_suspended.
Qed.

Lemma loadImage_resume_store (src : string) (node : Element) (s : Settlement) (w : World) :
  store (snd (loadImage_resume src node (awaited_of s) w))
    = <[src := JBool (succeeded s)]> (store w).
Proof.
  unfold loadImage_resume. destruct s as [h|]; cbn [awaited_of destructure_height snd succeeded].
  - unfold dispatch. cbn [store reducer]. by destruct (elem_parent node).
  - reflexivity.
Qed.

Lemma resume_all_store (s : Settlement) (waiting : list Suspended) (w : World) (x : string) :
  x ∈ map sus_src waiting ->
  store (resume_all (awaited_of s) waiting w) !! x = Some (JBool (succeeded s)).
Proof.
  unfold resume_all. revert w. induction waiting as [|c waiting IH] using rev_ind;
    intros w Hx; [by apply elem_of_nil in Hx|].
  rewrite foldl_app. cbn [foldl]. rewrite loadImage_resume_store.
  rewrite map_app in Hx. apply elem_of_app in Hx as [Hx|Hx].
  - destruct (decide (sus_src c = x)) as [<-|Hne]; [apply lookup_insert_eq|].
    rewrite lookup_insert_ne by done. by apply IH.
  - cbn in Hx. apply list_elem_of_singleton in Hx. subst x. apply lookup_insert_eq.
Qed.

Lemma resume_all_rejected_styleHeight (waiting : list Suspended) (w : World) :
  styleHeight (resume_all GotRejection waiting w) = styleHeight w.
Proof.
  unfold resume_all. revert w. induction waiting as [|c waiting IH]; intros w; [done|].
  cbn [foldl]. rewrite IH. unfold loadImage_resume. cbn [destructure_height snd].
  apply dispatch_styleHeight.
Qed.

(** X22. When the image behind an unsettled promise loads or fails, every
    call parked on that promise continues and none stays parked; calls parked
    on other promises stay; the cache records the outcome, [true] or [false],
    under the URL of every call that was waiting; and a failure sets no
    [style.height]. *)
Theorem settle_wakes_every_waiter (w : World) (p : nat) (s : Settlement) (x : string) :
  p < length (fetched w) ->
  settled w !! p = None ->
  suspended (settle p s w) = filter (fun c => sus_promise c ≠ p) (suspended w) /\
  settled (settle p s w) !! p = Some s /\
  (x ∈ map sus_src (filter (fun c => sus_promise c = p) (suspended w)) ->
   store (settle p s w) !! x = Some (JBool (succeeded s))) /\
  (s = Rejected -> styleHeight (settle p s w) = styleHeight w).
Proof.
  intros Hlt Hnone. unfold settle.
  rewrite bool_decide_eq_true_2 by done. rewrite bool_decide_eq_true_2 by done. cbn [andb].
  rewrite resume_all_suspended, resume_all_settled. cbn [suspended settled].
  split; [done|]. split; [apply lookup_insert_eq|]. split.
  - apply resume_all_store.
  - intros ->. cbn [awaited_of]. by rewrite resume_all_rejected_styleHeight.
Qed.

Lemma settle_wakes_every_waiter_witness :
  (0 < length (fetched (started "a.png" (img 1) initial_world)) /\
   settled (started "a.png" (img 1) initial_world) !! 0 = None) /\
  suspended (settle 0 Rejected (started "a.png" (img 1) initial_world)) = [] /\
  store (settle 0 Rejected (started "a.png" (img 1) initial_world)) !! "a.png"
    = Some (JBool false).
Proof.
  assert (0 < length (fetched (started "a.png" (img 1) initial_world))) as H1 by (simpl; lia).
  assert (settled (started "a.png" (img 1) initial_world) !! 0 = None) as H2 by reflexivity.
  split; [exact (conj H1 H2)|].
  pose proof (settle_wakes_every_waiter (started "a.png" (img 1) initial_world) 0 Rejected
                "a.png" H1 H2) as (Hs & _ & Hst & _).
  split; [exact Hs|]. apply Hst. apply list_elem_of_singleton. reflexivity.
Defined.

(** ** Two eager images under one provider *)

Lemma run_app (l1 l2 : list Event) (w : World) : run l2 (run l1 w) = run (l1 ++ l2) w.
Proof. unfold run. by rewrite foldl_app. Qed.

(** A call through an [imgLoaderApi] value whose own timer is the only one
    that may be pending, for a URL its cache shows as [IDLE], then [d >= 16]
    ms and the timer. *)
Lemma call_then_timer (evs : list Event) (k : nat) (api : Api) (src : string)
    (node : Element) (d : nat) :
  apis (run evs initial_world) !! k = Some api ->
  pending (clearTimeout (timeoutID (api_loadImage api)) (timers (run evs initial_world))) = [] ->
  getStatus (api_cache api) src = Normal IDLE ->
  16 <= d ->
  fetched (run (evs ++ [EvCall k src node; EvTick d; EvFire]) initial_world)
    = fetched (run evs initial_world) ++ [src] /\
  store (run (evs ++ [EvCall k src node; EvTick d; EvFire]) initial_world)
    = <[src := JPromise (length (fetched (run evs initial_world)))]>
        (store (run evs initial_world)) /\
  current_cache (run (evs ++ [EvCall k src node; EvTick d; EvFire]) initial_world)
    = store (run (evs ++ [EvCall k src node; EvTick d; EvFire]) initial_world) /\
  current_api (run (evs ++ [EvCall k src node; EvTick d; EvFire]) initial_world)
    = length (apis (run evs initial_world)) /\
  pending (timers (run (evs ++ [EvCall k src node; EvTick d; EvFire]) initial_world)) = [].
Proof.
  intros Hk Hp Hst Hd. rewrite <- run_app. set (w := run evs initial_world) in *.
  destruct (debounce_ok_run evs) as [_ Hidx]. fold w in Hidx.
  destruct (Hidx k api Hk) as [Hdelay Hfn].
  assert (k < length (apis w)) as Hlen by (by apply lookup_lt_Some in Hk).
  pose proof (next_promise_unsettled evs) as Hnone. fold w in Hnone.
  assert (next_timer (clearTimeout (timeoutID (api_loadImage api)) (timers w))
          = next_timer (timers w)) as Hnext by (by destruct (timeoutID _)).
  unfold run. cbn [foldl step].
  unfold call_loadImage. rewrite Hk.
  unfold debounced_call, setTimeout. cbn [fst snd]. rewrite Hp, Hnext. cbn [app].
  unfold tick, fire_timer. cbn [now timers pending take_due].
  rewrite Hdelay.
  assert (is_due (now w + d) (MkTimer (next_timer (timers w)) (now w + debounce_delay)
                                      (db_fn (api_loadImage api) (src, node))) = true) as ->.
  { unfold is_due, debounce_delay. cbn [timer_due]. apply Nat.leb_le. lia. }
  cbn [timer_callback apis]. rewrite Hfn. cbn [rc_api rc_src rc_imgNode fst snd].
  rewrite list_lookup_insert_eq by done. cbn [api_cache].
  unfold loadImage. rewrite Hst. cbn [fetchImg fetched]. unfold await.
  rewrite dispatch_settled. cbn [settled]. rewrite Hnone. cbn [snd].
  unfold park, dispatch. cbn [fetched store timers apis reducer pending].
  split; [done|]. split; [done|]. split; [|split; [|done]].
  - by erewrite current_cache_last by reflexivity.
  - unfold current_api. cbn [apis]. rewrite length_app, length_insert. cbn [length]. lia.
Qed.

Lemma eager_effect_events (k : nat) (cache : Cache) (src : string) (node : Element) :
  elem_is_img node = true ->
  effect_events browser k cache [(src, eager node)]
    = match getStatus cache src with
      | Normal IDLE => [EvCall k src node]
      | _ => []
      end.
Proof.
  intros Himg. unfold effect_events. cbn [flat_map fst snd]. rewrite app_nil_r.
  destruct (getStatus cache src) as [[| | |]|e]; try reflexivity.
  unfold useImgLoader_effect, eager. cbn [imgNode lazy default from_option].
  rewrite Himg. reflexivity.
Qed.

(** X23. Two eager images with different plain URLs under a fresh provider.
    Their effects call [loadImage] one after the other, the debounce keeps
    the second call only, and 16 ms later the second image is fetched; the
    render that follows runs the effect of the first image again, and 16 ms
    later that image is fetched too.  Both are fetched exactly once, the
    second one first. *)
Theorem two_eager_images_both_fetched (a b : string) (na nb : Element) :
  plain_name a -> plain_name b -> a <> b ->
  elem_is_img na = true -> elem_is_img nb = true ->
  fetched (run [EvTick 16; EvFire]
            (run_effects browser [(a, eager na); (b, eager nb)]
              (run [EvTick 16; EvFire]
                (run_effects browser [(a, eager na); (b, eager nb)] initial_world))))
    = [b; a].
Proof.
  intros Ha Hb Hab Hia Hib.
  assert (forall k cache,
            effect_events browser k cache [(a, eager na); (b, eager nb)]
            = effect_events browser k cache [(a, eager na)]
              ++ effect_events browser k cache [(b, eager nb)]) as Hsplit.
  { intros k cache. unfold effect_events. cbn [flat_map]. by rewrite !app_nil_r. }
  assert (getStatus ∅ a = Normal IDLE) as Ha0 by (by apply getStatus_spec).
  assert (getStatus ∅ b = Normal IDLE) as Hb0 by (by apply getStatus_spec).
  (* the first round: both effects call, the timer loads b *)
  unfold run_effects at 2. rewrite Hsplit, !eager_effect_events by done.
  change (current_cache initial_world) with (∅ : Cache).
  change (current_api initial_world) with 0.
  rewrite Ha0, Hb0. cbn [app]. rewrite run_app. cbn [app].
  change [EvCall 0 a na; EvCall 0 b nb; EvTick 16; EvFire]
    with ([EvCall 0 a na] ++ [EvCall 0 b nb; EvTick 16; EvFire]).
  assert (apis (run [EvCall 0 a na] initial_world) !! 0
          = Some (MkApi ∅ (MkDebounced (fun args => MkRawCall 0 (fst args) (snd args)) 16
                                       (Some 1)))) as Hk1 by reflexivity.
  destruct (call_then_timer [EvCall 0 a na] 0 _ b nb 16 Hk1 eq_refl Hb0 (le_n _))
    as (Hf1 & Hs1 & Hc1 & Hi1 & Hp1).
  set (w1 := run ([EvCall 0 a na] ++ [EvCall 0 b nb; EvTick 16; EvFire]) initial_world) in *.
  change (fetched (run [EvCall 0 a na] initial_world)) with (@nil string) in Hf1, Hs1.
  change (store (run [EvCall 0 a na] initial_world)) with (∅ : Cache) in Hs1.
  cbn [length app] in Hf1, Hs1.
  (* the second round: only the effect of a calls, the timer loads a *)
  assert (getStatus (current_cache w1) a = Normal IDLE) as Ha1.
  { rewrite Hc1, Hs1. apply getStatus_spec; [|done]. by rewrite lookup_insert_ne. }
  assert (getStatus (current_cache w1) b = Normal PENDING) as Hb1.
  { rewrite Hc1, Hs1. eapply getStatus_spec. apply lookup_insert_eq. }
  unfold run_effects. rewrite Hsplit, !eager_effect_events by done.
  rewrite Ha1, Hb1. cbn [app]. rewrite run_app. cbn [app].
  unfold w1 at 2. rewrite run_app.
  destruct (current_api_exists ([EvCall 0 a na] ++ [EvCall 0 b nb; EvTick 16; EvFire]))
    as (api & Hk2 & Hcache2). fold w1 in Hk2, Hcache2.
  rewrite Hcache2 in Ha1.
  destruct (call_then_timer _ _ api a na 16 Hk2) as (Hf2 & _); [|done|lia|].
  - fold w1.
    destruct (timeoutID (api_loadImage api)); cbn [clearTimeout pending]; rewrite ?Hp1; done.
  - fold w1 in Hf2. rewrite Hf2, Hf1. reflexivity.
Qed.

Lemma two_eager_images_both_fetched_witness :
  (plain_name "a.png" /\ plain_name "b.png" /\ "a.png" <> "b.png" /\
   elem_is_img (img 1) = true /\ elem_is_img (img 2) = true) /\
  fetched (run [EvTick 16; EvFire]
            (run_effects browser [("a.png", eager (img 1)); ("b.png", eager (img 2))]
              (run [EvTick 16; EvFire]
                (run_effects browser [("a.png", eager (img 1)); ("b.png", eager (img 2))]
                             initial_world))))
    = ["b.png"; "a.png"].
Proof.
  assert (plain_name "a.png") as H1 by reflexivity.
  assert (plain_name "b.png") as H2 by reflexivity.
  assert ("a.png" <> "b.png") as H3 by discriminate.
  split; [exact (conj H1 (conj H2 (conj H3 (conj eq_refl eq_refl))))|].
  exact (two_eager_images_both_fetched "a.png" "b.png" (img 1) (img 2) H1 H2 H3
           eq_refl eq_refl).
Defined.
